(** * VimGym: scoring, completion check, progress store and key sequencer

    A shallow embedding of the pure and state-passing parts of the Go
    sources

      - [internal/puzzle/scorer.go]     ([Score])
      - [internal/puzzle/validator.go]  ([Validate])
      - [internal/puzzle] types         ([StarRating], [Puzzle], [GetPuzzlesForLevel])
      - [internal/progress]             ([PuzzleResult], [SetBest], [GetBest], [IsLevelUnlocked])
      - [internal/tui] puzzle view      ([translateKey], [handleNvimInput],
                                         [handleOperatorPending], [applyImmediateMode], ...)

    Go's [int] is modelled as a [Z] in the 64-bit two's-complement range with
    the wrap-around of every arithmetic operation written out; Go strings are
    byte strings, modelled by [string] (one [ascii] per byte); the
    [map[string]PuzzleResult] of the progress store is a [gmap]. *)

From Stdlib Require Import ZArith Lia Ascii String.
From stdpp Require Import base gmap strings list sorting.

Local Open Scope Z_scope.

(** ** Go's [int] *)

Module GoInt.

Definition MaxInt : Z := 9223372036854775807.
Definition MinInt : Z := -9223372036854775808.

(** Reduction of a mathematical result to the 64-bit signed range. *)
Definition wrap (z : Z) : Z :=
  (z + 9223372036854775808) mod 18446744073709551616 - 9223372036854775808.

Definition in_range (z : Z) : Prop := MinInt <= z <= MaxInt.

Definition add (a b : Z) : Z := wrap (a + b).
Definition sub (a b : Z) : Z := wrap (a - b).
Definition mul (a b : Z) : Z := wrap (a * b).
(** Go's [/] truncates towards zero. *)
Definition quot (a b : Z) : Z := wrap (Z.quot a b).

End GoInt.

(** ** Package [puzzle]: ratings and scoring *)

(** [type StarRating int] with its four constants. *)
Definition StarRating : Type := Z.

Definition NoStar : StarRating := 0.
Definition OneStar : StarRating := 1.
Definition TwoStar : StarRating := 2.
Definition ThreeStar : StarRating := 3.

(** [Score]: [keystrokes <= par], then [keystrokes <= par*3/2], else one star. *)
Definition Score (keystrokes par : Z) : StarRating :=
  if keystrokes <=? par then ThreeStar
  else if keystrokes <=? GoInt.quot (GoInt.mul par 3) 2 then TwoStar
  else OneStar.

(** ** Package [puzzle]: completion check *)

Definition newline : ascii := "010"%char.

(** [strings.TrimRight(s, cutset)] for a cutset of one ASCII byte [c] is the
    library loop [for len(s) > 0 && s[len(s)-1] == c { s = s[:len(s)-1] }].
    Here it is computed front to back: a byte is kept unless it is [c] and
    everything after it has been trimmed away. *)
Fixpoint trimRightByte (s : string) (c : ascii) : string :=
  match s with
  | EmptyString => EmptyString
  | String a r =>
      match trimRightByte r c with
      | EmptyString => if Ascii.eqb a c then EmptyString else String a EmptyString
      | String b r' => String a (String b r')
      end
  end.

Definition TrimRight_newline (s : string) : string := trimRightByte s newline.

(** [Validate(current, target)]. *)
Definition Validate (current target : string) : bool :=
  String.eqb (TrimRight_newline current) (TrimRight_newline target).

(** [k] copies of the byte [c]. *)
Fixpoint repeat_byte (c : ascii) (k : nat) : string :=
  match k with
  | O => EmptyString
  | S k' => String c (repeat_byte c k')
  end.

(** The last byte of [s] is [c]. *)
Fixpoint ends_with (c : ascii) (s : string) : bool :=
  match s with
  | EmptyString => false
  | String a EmptyString => Ascii.eqb a c
  | String _ r => ends_with c r
  end.

(** The completion check as the specification words it: one trailing line
    terminator, and no more, is removed from each side. *)
Fixpoint spec_trim_one_newline (s : string) : string :=
  match s with
  | EmptyString => EmptyString
  | String a EmptyString => if Ascii.eqb a newline then EmptyString else s
  | String a r => String a (spec_trim_one_newline r)
  end.

Definition spec_Complete (current target : string) : bool :=
  String.eqb (spec_trim_one_newline current) (spec_trim_one_newline target).

(** ** Package [puzzle]: puzzle records and level lookup *)

(** The fields of [Puzzle] that the modelled functions read. *)
Record Puzzle := mkPuzzle {
  ID : string;
  Track : Z;
  Level : Z;
  Par : Z
}.

(** [GetPuzzlesForLevel]: the puzzles with [p.Level == level], in order. *)
Fixpoint GetPuzzlesForLevel (puzzles : list Puzzle) (level : Z) : list Puzzle :=
  match puzzles with
  | [] => []
  | p :: rest =>
      if Level p =? level then p :: GetPuzzlesForLevel rest level
      else GetPuzzlesForLevel rest level
  end.

(** ** Package [progress] *)

Record PuzzleResult := mkResult {
  Stars : StarRating;
  Keystrokes : Z
}.

Record Store := mkStore {
  dir : string;
  Results : gmap string PuzzleResult
}.

(** [GetBest]: indexing a Go map yields the zero value for an absent key. *)
Definition GetBest (s : Store) (puzzleID : string) : PuzzleResult :=
  match Results s !! puzzleID with
  | Some r => r
  | None => mkResult 0 0
  end.

(** [SetBest]: the assignment to [s.Results[puzzleID]] runs when
    [!ok || stars > existing.Stars ||
     (stars == existing.Stars && keystrokes < existing.Keystrokes)]. *)
Definition SetBest (s : Store) (puzzleID : string) (stars : StarRating)
    (keystrokes : Z) : Store :=
  let existing := GetBest s puzzleID in
  let ok := bool_decide (is_Some (Results s !! puzzleID)) in
  if negb ok
     || (stars >? Stars existing)
     || ((stars =? Stars existing) && (keystrokes <? Keystrokes existing))
  then mkStore (dir s) (<[puzzleID := mkResult stars keystrokes]> (Results s))
  else s.

(** The loop of [IsLevelUnlocked] over the previous level's puzzles. *)
Fixpoint all_have_one_star (s : Store) (prevPuzzles : list Puzzle) : bool :=
  match prevPuzzles with
  | [] => true
  | p :: rest =>
      if Stars (GetBest s (ID p)) <? OneStar then false
      else all_have_one_star s rest
  end.

Definition IsLevelUnlocked (s : Store) (level : Z) (allPuzzles : list Puzzle) : bool :=
  if level <=? 1 then true
  else
    let prevLevel := GoInt.sub level 1 in
    let prevPuzzles := GetPuzzlesForLevel allPuzzles prevLevel in
    if (length prevPuzzles =? 0)%nat then true
    else all_have_one_star s prevPuzzles.

(** ** Package [tui]: key translation *)

(** [tea.KeyType]: the key types that [translateKey] tells apart; every
    other type of the library is [KeyOther]. *)
Inductive KeyType :=
  | KeyEsc | KeyEnter | KeyTab | KeyBackspace | KeyDelete
  | KeyUp | KeyDown | KeyLeft | KeyRight | KeyHome | KeyEnd
  | KeyPgUp | KeyPgDown | KeySpace | KeyRunes
  | KeyOther (code : Z).

(** [tea.KeyMsg]: its type, its runes (as the bytes of [string(msg.Runes)])
    and the value of the library method [msg.String()]. *)
Record KeyMsg := mkKeyMsg {
  KeyMsg_Type : KeyType;
  KeyMsg_Runes : string;
  KeyMsg_String : string
}.

(** [strings.ReplaceAll(s, "<", "<LT>")]. *)
Fixpoint ReplaceAll_lt (s : string) : string :=
  match s with
  | EmptyString => EmptyString
  | String c r =>
      if Ascii.eqb c "<"%char then "<LT>" +:+ ReplaceAll_lt r
      else String c (ReplaceAll_lt r)
  end.

Definition HasPrefix (s pre : string) : bool := String.prefix pre s.

Definition TrimPrefix (s pre : string) : string :=
  if HasPrefix s pre
  then String.substring (String.length pre) (String.length s - String.length pre) s
  else s.

Definition translateKey (msg : KeyMsg) : string :=
  match KeyMsg_Type msg with
  | KeyEsc => "<Esc>"
  | KeyEnter => "<CR>"
  | KeyTab => "<Tab>"
  | KeyBackspace => "<BS>"
  | KeyDelete => "<Del>"
  | KeyUp => "<Up>"
  | KeyDown => "<Down>"
  | KeyLeft => "<Left>"
  | KeyRight => "<Right>"
  | KeyHome => "<Home>"
  | KeyEnd => "<End>"
  | KeyPgUp => "<PageUp>"
  | KeyPgDown => "<PageDown>"
  | KeySpace => " "
  | KeyRunes => ReplaceAll_lt (KeyMsg_Runes msg)
  | KeyOther _ =>
      let str := KeyMsg_String msg in
      if HasPrefix str "ctrl+" then
        let letter := TrimPrefix str "ctrl+" in
        "<C-" +:+ letter +:+ ">"
      else EmptyString
  end.

(** ** Package [tui]: the grammar tables of the sequencer *)

(** [switch keys { case k1, k2, ...: }] on a string. *)
Definition key_in (keys : string) (cases : list string) : bool :=
  existsb (String.eqb keys) cases.

Definition shouldBufferKey (keys : string) : bool :=
  key_in keys ["r"; "f"; "t"; "F"; "T"; "m"; "'"; "`"; "g"; "z"; "@"; "q"; "["; "]"].

Definition shouldStartOperator (keys : string) : bool :=
  key_in keys ["d"; "c"; "y"].

Definition keyNeedsChar (keys : string) : bool :=
  key_in keys ["r"; "f"; "t"; "F"; "T"].

Definition is_digit_byte (c : ascii) : bool :=
  (48 <=? nat_of_ascii c)%nat && (nat_of_ascii c <=? 57)%nat.

Definition isDigitKey (keys : string) : bool :=
  match keys with
  | String c EmptyString => is_digit_byte c
  | _ => false
  end.

Definition isTextObjectPrefix (keys : string) : bool :=
  key_in keys ["i"; "a"].

Definition isMotionCharPrefix (keys : string) : bool :=
  key_in keys ["f"; "t"; "F"; "T"].

(** The index loop of [entersInsertAfterChange] skips the leading digits;
    what is left starts at [keys[i]]. *)
Fixpoint skip_digits (keys : string) : string :=
  match keys with
  | EmptyString => EmptyString
  | String c r => if is_digit_byte c then skip_digits r else keys
  end.

Definition entersInsertAfterChange (keys : string) : bool :=
  match skip_digits keys with
  | EmptyString => false
  | String c r =>
      if Ascii.eqb c "c"%char then negb (String.eqb r EmptyString) else false
  end.

(** ** Package [tui]: the puzzle view *)

(** The engine client behind [v.nvim], seen through its [Input] method: the
    command strings it has been handed, oldest first. *)
Record Client := mkClient {
  inputs : list string
}.

Definition Client_Input (c : Client) (keys : string) : Client :=
  mkClient (inputs c ++ [keys]).

(** [tea.Cmd] as returned by [handleNvimInput]: [nil], or the tick of
    [scheduleSync] that delivers an [nvimSyncMsg]. *)
Inductive Cmd := CmdNil | CmdSyncTick.

(** The fields of [PuzzleView] that the sequencer reads or writes. [nvim] is
    a pointer: [None] is [nil]. The client it points to is shared with the
    application, so its state is threaded through the view. *)
Record PuzzleView := mkPuzzleView {
  nvim : option Client;
  keystrokes : Z;
  mode : string;
  pendingKeys : string;
  pendingOperator : bool;
  pendingNeedsChar : bool;
  pendingTextObject : bool;
  pendingHasCount : bool;
  pendingCount : string
}.

Definition set_nvim (v : PuzzleView) (c : option Client) : PuzzleView :=
  mkPuzzleView c (keystrokes v) (mode v) (pendingKeys v) (pendingOperator v)
    (pendingNeedsChar v) (pendingTextObject v) (pendingHasCount v) (pendingCount v).

Definition set_keystrokes (v : PuzzleView) (n : Z) : PuzzleView :=
  mkPuzzleView (nvim v) n (mode v) (pendingKeys v) (pendingOperator v)
    (pendingNeedsChar v) (pendingTextObject v) (pendingHasCount v) (pendingCount v).

Definition set_mode (v : PuzzleView) (m : string) : PuzzleView :=
  mkPuzzleView (nvim v) (keystrokes v) m (pendingKeys v) (pendingOperator v)
    (pendingNeedsChar v) (pendingTextObject v) (pendingHasCount v) (pendingCount v).

Definition set_pendingKeys (v : PuzzleView) (k : string) : PuzzleView :=
  mkPuzzleView (nvim v) (keystrokes v) (mode v) k (pendingOperator v)
    (pendingNeedsChar v) (pendingTextObject v) (pendingHasCount v) (pendingCount v).

Definition set_pendingOperator (v : PuzzleView) (b : bool) : PuzzleView :=
  mkPuzzleView (nvim v) (keystrokes v) (mode v) (pendingKeys v) b
    (pendingNeedsChar v) (pendingTextObject v) (pendingHasCount v) (pendingCount v).

Definition set_pendingNeedsChar (v : PuzzleView) (b : bool) : PuzzleView :=
  mkPuzzleView (nvim v) (keystrokes v) (mode v) (pendingKeys v) (pendingOperator v)
    b (pendingTextObject v) (pendingHasCount v) (pendingCount v).

Definition set_pendingTextObject (v : PuzzleView) (b : bool) : PuzzleView :=
  mkPuzzleView (nvim v) (keystrokes v) (mode v) (pendingKeys v) (pendingOperator v)
    (pendingNeedsChar v) b (pendingHasCount v) (pendingCount v).

Definition set_pendingHasCount (v : PuzzleView) (b : bool) : PuzzleView :=
  mkPuzzleView (nvim v) (keystrokes v) (mode v) (pendingKeys v) (pendingOperator v)
    (pendingNeedsChar v) (pendingTextObject v) b (pendingCount v).

Definition set_pendingCount (v : PuzzleView) (k : string) : PuzzleView :=
  mkPuzzleView (nvim v) (keystrokes v) (mode v) (pendingKeys v) (pendingOperator v)
    (pendingNeedsChar v) (pendingTextObject v) (pendingHasCount v) k.

(** [NewPuzzleView]: playing state, mode ["NORMAL"], everything else zero. *)
Definition NewPuzzleView (nv : option Client) : PuzzleView :=
  mkPuzzleView nv 0 "NORMAL" EmptyString false false false false EmptyString.

Definition clearPending (v : PuzzleView) : PuzzleView :=
  mkPuzzleView (nvim v) (keystrokes v) (mode v)
    EmptyString false false false false EmptyString.

(** [v.nvim.Input(keys)] without a nil check: [Client.Input] reads [c.nv],
    which panics on a nil receiver ([None]). *)
Definition nvim_Input (v : PuzzleView) (keys : string) : option PuzzleView :=
  match nvim v with
  | None => None
  | Some c => Some (set_nvim v (Some (Client_Input c keys)))
  end.

(** [inputAndSync]: hands [keys] to the client if there is one and returns
    the sync tick. *)
Definition inputAndSync (v : PuzzleView) (keys : string) : PuzzleView * Cmd :=
  match nvim v with
  | Some c => (set_nvim v (Some (Client_Input c keys)), CmdSyncTick)
  | None => (v, CmdSyncTick)
  end.

Definition applyImmediateMode (v : PuzzleView) (keys : string) : PuzzleView :=
  if String.eqb keys "<Esc>" then set_mode v "NORMAL"
  else if negb (String.eqb (mode v) "NORMAL") then v
  else if key_in keys ["i"; "I"; "a"; "A"; "o"; "O"; "s"; "S"; "C"] then set_mode v "INSERT"
  else if key_in keys ["R"] then set_mode v "REPLACE"
  else if key_in keys ["v"] then set_mode v "VISUAL"
  else if key_in keys ["V"] then set_mode v "V-LINE"
  else if key_in keys ["<C-v>"] then set_mode v "V-BLOCK"
  else if key_in keys [":"; "/"; "?"] then set_mode v "COMMAND"
  else if entersInsertAfterChange keys then set_mode v "INSERT"
  else v.

(** The three steps that end every dispatching branch of
    [handleOperatorPending]: clear, hand over, report [true]. *)
Definition dispatch_pending (v : PuzzleView) (combined : string)
    : option (PuzzleView * bool) :=
  v' ← nvim_Input (clearPending v) combined;
  Some (v', true).

(** [handleOperatorPending]: the new view and whether a command was sent;
    [None] is the panic of a nil client. *)
Definition handleOperatorPending (v : PuzzleView) (keys : string)
    : option (PuzzleView * bool) :=
  if pendingTextObject v then
    dispatch_pending v (pendingKeys v +:+ keys)
  else if pendingNeedsChar v then
    dispatch_pending v (pendingKeys v +:+ keys)
  else if (String.length (pendingKeys v) =? 1)%nat
          && String.eqb keys (pendingKeys v)
          && negb (pendingHasCount v) then
    dispatch_pending v (pendingKeys v +:+ keys)
  else if isDigitKey keys then
    if String.eqb keys "0" && negb (pendingHasCount v) then
      dispatch_pending v (pendingKeys v +:+ keys)
    else
      Some (set_pendingHasCount (set_pendingKeys v (pendingKeys v +:+ keys)) true, false)
  else if isTextObjectPrefix keys then
    Some (set_pendingTextObject (set_pendingKeys v (pendingKeys v +:+ keys)) true, false)
  else if isMotionCharPrefix keys then
    Some (set_pendingNeedsChar (set_pendingKeys v (pendingKeys v +:+ keys)) true, false)
  else
    dispatch_pending v (pendingKeys v +:+ keys).

(** [handleNvimInput]: the new view and the returned command; [None] is a
    panic. The view is returned by value, the client it points to carries
    the [Input] calls made on the way. *)
Definition handleNvimInput (v : PuzzleView) (keys : string)
    : option (PuzzleView * Cmd) :=
  if String.eqb keys EmptyString then Some (v, CmdNil)
  else
    let v := set_keystrokes v (GoInt.add (keystrokes v) 1) in
    if negb (String.eqb (mode v) "NORMAL") then
      Some (inputAndSync (applyImmediateMode (clearPending v) keys) keys)
    else if negb (String.eqb (pendingKeys v) EmptyString) then
      if String.eqb keys "<Esc>" then
        Some (inputAndSync (applyImmediateMode (clearPending v) keys) keys)
      else if pendingOperator v then
        let combined := pendingKeys v +:+ keys in
        '(v', sent) ← handleOperatorPending v keys;
        if sent : bool then Some (applyImmediateMode v' combined, CmdSyncTick)
        else Some (v', CmdNil)
      else if pendingNeedsChar v || pendingTextObject v then
        let combined := pendingKeys v +:+ keys in
        Some (inputAndSync (applyImmediateMode (clearPending v) combined) combined)
      else
        let combined := pendingKeys v +:+ keys in
        Some (inputAndSync (applyImmediateMode (clearPending v) combined) combined)
    else if negb (String.eqb (pendingCount v) EmptyString) then
      if String.eqb keys "<Esc>" then
        Some (inputAndSync (applyImmediateMode (set_pendingCount v EmptyString) keys) keys)
      else if isDigitKey keys then
        Some (set_pendingCount v (pendingCount v +:+ keys), CmdNil)
      else if shouldStartOperator keys then
        Some (set_pendingCount
                (set_pendingOperator
                   (set_pendingKeys v (pendingCount v +:+ keys)) true)
                EmptyString, CmdNil)
      else if shouldBufferKey keys then
        Some (set_pendingCount
                (set_pendingNeedsChar
                   (set_pendingKeys v (pendingCount v +:+ keys)) (keyNeedsChar keys))
                EmptyString, CmdNil)
      else
        let combined := pendingCount v +:+ keys in
        Some (inputAndSync
                (applyImmediateMode (set_pendingCount v EmptyString) combined) combined)
    else if isDigitKey keys then
      if negb (String.eqb keys "0") then Some (set_pendingCount v keys, CmdNil)
      else Some (inputAndSync (applyImmediateMode v keys) keys)
    else if shouldStartOperator keys then
      Some (set_pendingOperator (set_pendingKeys v keys) true, CmdNil)
    else if shouldBufferKey keys then
      Some (set_pendingNeedsChar (set_pendingKeys v keys) (keyNeedsChar keys), CmdNil)
    else
      Some (inputAndSync (applyImmediateMode v keys) keys).

(** The [default] branch of [Update] for a key message in the playing
    state: translate, then sequence. *)
Definition Update_key_default (v : PuzzleView) (msg : KeyMsg)
    : option (PuzzleView * Cmd) :=
  handleNvimInput v (translateKey msg).

(** ** Package [tui]: the states a session can be in *)

(** The byte string ["\x1b"] that [LoadPuzzle] hands to [Input]. *)
Definition escByte : string := String "027"%char EmptyString.

(** Some multi-key state is buffered. *)
Definition is_pending (v : PuzzleView) : bool :=
  negb (String.eqb (pendingKeys v) EmptyString)
  || negb (String.eqb (pendingCount v) EmptyString)
  || pendingOperator v || pendingNeedsChar v
  || pendingTextObject v || pendingHasCount v.

(** Every pending field has its zero value. *)
Definition pending_cleared (v : PuzzleView) : Prop :=
  pendingKeys v = EmptyString /\ pendingCount v = EmptyString /\
  pendingOperator v = false /\ pendingNeedsChar v = false /\
  pendingTextObject v = false /\ pendingHasCount v = false.

(** The views a session goes through: [NewPuzzleView], then any number of
    [Update] steps. Besides [handleNvimInput], [Update] loads the puzzle
    (one [Input] of the escape byte), reads the mode back from the engine,
    resets the counter and clears the pending fields. *)
Inductive reachable : PuzzleView -> Prop :=
  | reach_new nv :
      reachable (NewPuzzleView nv)
  | reach_load v c :
      reachable v -> nvim v = Some c ->
      reachable (set_nvim v (Some (Client_Input c escByte)))
  | reach_sync v m :
      reachable v -> reachable (set_mode v m)
  | reach_reset v :
      reachable v -> reachable (clearPending (set_keystrokes v 0))
  | reach_clear v :
      reachable v -> reachable (clearPending v)
  | reach_key v keys v' cmd :
      reachable v -> handleNvimInput v keys = Some (v', cmd) ->
      reachable v'.

(** The flags of a buffered command are only ever set together with its
    key text. *)
Definition flags_need_keys (v : PuzzleView) : Prop :=
  pendingKeys v = EmptyString ->
  pendingOperator v = false /\ pendingNeedsChar v = false /\
  pendingTextObject v = false /\ pendingHasCount v = false.

(** ** Package [puzzle]: grouping and listing *)

(** [GroupByLevel]: [m[p.Level] = append(m[p.Level], p)] for every puzzle;
    a level without an entry reads as the nil slice. *)
Definition GroupByLevel (puzzles : list Puzzle) : gmap Z (list Puzzle) :=
  fold_left (fun m p => <[Level p := default [] (m !! Level p) ++ [p]]> m)
    puzzles ∅.

(** [sort.Ints]: ascending order. *)
Definition sort_Ints (l : list Z) : list Z := merge_sort Z.le l.

(** [GetTracks]: the keys of the [seen] map, sorted. *)
Definition GetTracks (puzzles : list Puzzle) : list Z :=
  let seen :=
    fold_left (fun (seen : gset Z) p => {[Track p]} ∪ seen) puzzles ∅ in
  sort_Ints (elements seen).

(** [GetLevelsForTrack]: the levels seen on puzzles of [track], sorted. *)
Definition GetLevelsForTrack (puzzles : list Puzzle) (track : Z) : list Z :=
  let seen :=
    fold_left
      (fun (seen : gset Z) p =>
         if Track p =? track then {[Level p]} ∪ seen else seen)
      puzzles ∅ in
  sort_Ints (elements seen).

(** ** Package [progress]: star summaries *)

(** The loop of [GetLevelStars]: a running minimum. *)
Fixpoint min_stars (s : Store) (puzzles : list Puzzle) (minStars : StarRating)
    : StarRating :=
  match puzzles with
  | [] => minStars
  | p :: rest =>
      let result := GetBest s (ID p) in
      if Stars result <? minStars then min_stars s rest (Stars result)
      else min_stars s rest minStars
  end.

Definition GetLevelStars (s : Store) (level : Z) (allPuzzles : list Puzzle)
    : StarRating :=
  let puzzles := GetPuzzlesForLevel allPuzzles level in
  if (length puzzles =? 0)%nat then NoStar
  else min_stars s puzzles ThreeStar.

(** The loop of [GetTrackStars]: a running maximum over the levels. *)
Fixpoint max_level_stars (s : Store) (levels : list Z) (allPuzzles : list Puzzle)
    (maxStars : StarRating) : StarRating :=
  match levels with
  | [] => maxStars
  | level :: rest =>
      let levelStars := GetLevelStars s level allPuzzles in
      if levelStars >? maxStars then max_level_stars s rest allPuzzles levelStars
      else max_level_stars s rest allPuzzles maxStars
  end.

Definition GetTrackStars (s : Store) (track : Z) (allPuzzles : list Puzzle)
    : StarRating :=
  let levels := GetLevelsForTrack allPuzzles track in
  if (length levels =? 0)%nat then NoStar
  else max_level_stars s levels allPuzzles NoStar.

(** "At least as good": the order [SetBest] improves along. *)
Definition at_least_as_good (r r' : PuzzleResult) : Prop :=
  Stars r < Stars r' \/ (Stars r = Stars r' /\ Keystrokes r' <= Keystrokes r).

(** The result [SetBest] leaves for a puzzle: the new one unless an older
    one is there and the new one does not beat it. *)
Definition best_of (existing : option PuzzleResult) (new : PuzzleResult)
    : PuzzleResult :=
  match existing with
  | None => new
  | Some old =>
      if (Stars new >? Stars old)
         || ((Stars new =? Stars old) && (Keystrokes new <? Keystrokes old))
      then new else old
  end.

(** ** Package [tui]: finishing a puzzle *)

Inductive puzzleState := statePlaying | stateCleared.

(** A puzzle view together with the fields [syncCheckClear] works on: the
    puzzle, its goal text [puzzle.After.Text], the play state, the stars
    shown and the progress store behind [v.progress]. *)
Record Session := mkSession {
  view : PuzzleView;
  puzzle : Puzzle;
  goalText : string;
  state : puzzleState;
  stars : StarRating;
  progress : Store
}.

(** [syncCheckClear]. [bufferText] is what [GetBufferText] answers, [None]
    when it fails. [v.progress] is the store the application created;
    writing it to disk is not modelled. *)
Definition syncCheckClear (x : Session) (bufferText : option string) : Session :=
  match state x, nvim (view x) with
  | statePlaying, Some _ =>
      match bufferText with
      | None => x
      | Some text =>
          if Validate text (goalText x) then
            let stars' := Score (keystrokes (view x)) (Par (puzzle x)) in
            mkSession (view x) (puzzle x) (goalText x) stateCleared stars'
              (SetBest (progress x) (ID (puzzle x)) stars' (keystrokes (view x)))
          else x
      end
  | _, _ => x
  end.

(** The store after a run of cleared puzzles, each with its keystroke
    count: what [syncCheckClear] hands to [SetBest], one clear after the
    other. *)
Definition record_clears (s : Store) (clears : list (Puzzle * Z)) : Store :=
  fold_left
    (fun s pk => SetBest s (ID pk.1) (Score pk.2 (Par pk.1)) pk.2)
    clears s.

(** ** Package [tui]: windows and lines *)

(** [len] of a slice or string, as an [int]. *)
Definition len {A} (l : list A) : Z := Z.of_nat (length l).

(** [windowRange]. *)
Definition windowRange (total cursor height : Z) : Z * Z :=
  if (height <=? 0) || (total <=? height) then (0, total)
  else
    let cursor := if cursor <? 0 then 0 else cursor in
    let cursor := if cursor >=? total then GoInt.sub total 1 else cursor in
    let start := GoInt.sub cursor (GoInt.quot height 2) in
    let start := if start <? 0 then 0 else start in
    let start :=
      if GoInt.add start height >? total then GoInt.sub total height
      else start in
    (start, GoInt.add start height).

(** The cursor row brought into [0, total). *)
Definition clamp_row (total cursor : Z) : Z := Z.max 0 (Z.min cursor (total - 1)).

(** The slice expression [l[lo:hi]]; out of bounds it panics ([None]). The
    bound is the length: capacity beyond it is not modelled. *)
Definition slice {A} (l : list A) (lo hi : Z) : option (list A) :=
  if (0 <=? lo) && (lo <=? hi) && (hi <=? len l)
  then Some (take (Z.to_nat (hi - lo)) (drop (Z.to_nat lo) l))
  else None.

(** [windowLines]. *)
Definition windowLines (lines : list string) (cursor height : Z)
    : option (list string) :=
  if (height <=? 0) || (len lines <=? height) then Some lines
  else
    let cursor := if cursor <? 0 then 0 else cursor in
    let cursor := if cursor >=? len lines then GoInt.sub (len lines) 1 else cursor in
    let start := GoInt.sub cursor (GoInt.quot height 2) in
    let start := if start <? 0 then 0 else start in
    let start :=
      if GoInt.add start height >? len lines then GoInt.sub (len lines) height
      else start in
    slice lines start (GoInt.add start height).

(** [strings.Count(s, "\n")]. *)
Fixpoint Count_newline (s : string) : Z :=
  match s with
  | EmptyString => 0
  | String c r =>
      if Ascii.eqb c newline then 1 + Count_newline r else Count_newline r
  end.

(** [strings.Split(s, "\n")]. *)
Fixpoint Split_newline (s : string) : list string :=
  match s with
  | EmptyString => [EmptyString]
  | String c r =>
      if Ascii.eqb c newline then EmptyString :: Split_newline r
      else
        match Split_newline r with
        | h :: t => String c h :: t
        | [] => [String c EmptyString]
        end
  end.

(** [countLines]. *)
Definition countLines (text : string) : Z :=
  if String.eqb text EmptyString then 1
  else GoInt.add (Count_newline text) 1.

(** The loop of [goalFocusRow], entered at index [i] with [fuel] turns
    left; a slice read past its end yields the zero string. *)
Fixpoint goalFocusRow_loop (before after : list string) (i fuel : nat) : Z :=
  match fuel with
  | O => if len after =? 0 then 0 else GoInt.sub (len after) 1
  | S fuel' =>
      let b := nth i before EmptyString in
      let a := nth i after EmptyString in
      if negb (String.eqb b a) then
        if len after =? 0 then 0
        else if Z.of_nat i >=? len after then GoInt.sub (len after) 1
        else Z.of_nat i
      else goalFocusRow_loop before after (S i) fuel'
  end.

Definition go_max (a b : Z) : Z := if a >? b then a else b.
Definition go_min (a b : Z) : Z := if a <? b then a else b.

Definition goalFocusRow (before after : list string) : Z :=
  let maxLines := go_max (len before) (len after) in
  if maxLines =? 0 then 0
  else goalFocusRow_loop before after 0 (Z.to_nat maxLines).

(** ** Package [tui]: moving between puzzles *)

(** [nextPuzzleInLevel]: the first loop stops at the first puzzle with the
    current ID, the second looks at the puzzle right after it and at no
    other. The zero [Puzzle] stands for [puzzle.Puzzle{}]. *)
Fixpoint nextPuzzleInLevel (all : list Puzzle) (current : Puzzle)
    : Puzzle * bool :=
  match all with
  | [] => (mkPuzzle EmptyString 0 0 0, false)
  | p :: rest =>
      if String.eqb (ID p) (ID current) then
        match rest with
        | [] => (mkPuzzle EmptyString 0 0 0, false)
        | q :: _ =>
            if negb (Track q =? Track current) || negb (Level q =? Level current)
            then (mkPuzzle EmptyString 0 0 0, false)
            else (q, true)
        end
      else nextPuzzleInLevel rest current
  end.

(** ** Package [tui]: the sequencer over a run of key events *)

(** The key text held back so far: an operator or prefix command, or a
    leading count. *)
Definition buffered (v : PuzzleView) : string :=
  pendingKeys v +:+ pendingCount v.

(** [handleNvimInput] for one key event after the other. *)
Fixpoint handleKeys (v : PuzzleView) (keys : list string) : option PuzzleView :=
  match keys with
  | [] => Some v
  | k :: rest =>
      '(v', _) ← handleNvimInput v k;
      handleKeys v' rest
  end.

(** The concatenation of a list of strings. *)
Fixpoint concat_strings (l : list string) : string :=
  match l with
  | [] => EmptyString
  | s :: rest => s +:+ concat_strings rest
  end.

(** Every byte is a decimal digit. *)
Fixpoint all_digits (s : string) : bool :=
  match s with
  | EmptyString => true
  | String c r => is_digit_byte c && all_digits r
  end.

(** The count held back is a decimal numeral without a leading zero. *)
Definition count_shape (pc : string) : Prop :=
  all_digits pc = true /\ forall r, pc <> String "0" r.

(** What the sequencer keeps true from one key event to the next, as long
    as nothing but key events reaches it. *)
Definition sequencer_inv (v : PuzzleView) : Prop :=
  flags_need_keys v /\
  (pendingKeys v = EmptyString \/ pendingCount v = EmptyString) /\
  (mode v <> "NORMAL" -> buffered v = EmptyString).

(** * Properties *)

(** ** Go's [int] *)

Lemma GoInt_wrap_small z : GoInt.in_range z -> GoInt.wrap z = z.
Proof.
  unfold GoInt.in_range, GoInt.MinInt, GoInt.MaxInt, GoInt.wrap. intros H.
  rewrite Z.mod_small by lia. lia.
Qed.

Lemma GoInt_wrap_in_range z : GoInt.in_range (GoInt.wrap z).
Proof.
  unfold GoInt.in_range, GoInt.MinInt, GoInt.MaxInt, GoInt.wrap.
  pose proof (Z.mod_pos_bound (z + 9223372036854775808) 18446744073709551616).
  lia.
Qed.

(** ** Trimming *)

Lemma append_nil_l (t : string) : EmptyString +:+ t = t.
Proof. reflexivity. Qed.

Lemma append_cons a (s t : string) : String a s +:+ t = String a (s +:+ t).
Proof. reflexivity. Qed.

Lemma append_empty_r (s : string) : s +:+ EmptyString = s.
Proof.
  induction s as [|a s IH]; [done |]. by rewrite append_cons, IH.
Qed.

Lemma append_assoc (s t u : string) : (s +:+ t) +:+ u = s +:+ (t +:+ u).
Proof.
  induction s as [|a s IH]; [done |]. by rewrite !append_cons, IH.
Qed.

Lemma repeat_byte_snoc c k :
  repeat_byte c (S k) = repeat_byte c k +:+ String c EmptyString.
Proof.
  induction k as [|k IH]; [done |].
  change (repeat_byte c (S (S k))) with (String c (repeat_byte c (S k))).
  rewrite IH at 1. reflexivity.
Qed.

(** One turn of the library loop: a trailing [c] is dropped. *)
Lemma trimRightByte_snoc s c :
  trimRightByte (s +:+ String c EmptyString) c = trimRightByte s c.
Proof.
  induction s as [|a s IH].
  - rewrite append_nil_l. simpl. by rewrite Ascii.eqb_refl.
  - rewrite append_cons. simpl. by rewrite IH.
Qed.

(** The loop's exit: a string that does not end in [c] is returned as is. *)
Lemma trimRightByte_fixed s c :
  ends_with c s = false -> trimRightByte s c = s.
Proof.
  induction s as [|a s IH]; [done |].
  destruct s as [|b s'].
  - simpl. intros ->. done.
  - intros H. change (ends_with c (String b s') = false) in H.
    specialize (IH H). simpl in *. by rewrite IH.
Qed.

Lemma trimRightByte_repeat s c k :
  trimRightByte (s +:+ repeat_byte c k) c = trimRightByte s c.
Proof.
  induction k as [|k IH].
  - cbn [repeat_byte]. by rewrite append_empty_r.
  - rewrite repeat_byte_snoc, <- append_assoc, trimRightByte_snoc. exact IH.
Qed.

Lemma trimRightByte_no_trailing s c :
  ends_with c (trimRightByte s c) = false.
Proof.
  induction s as [|a s IH]; [done |]. simpl.
  destruct (trimRightByte s c) as [|b r] eqn:E.
  - destruct (Ascii.eqb a c) eqn:Ea; simpl; [done | exact Ea].
  - exact IH.
Qed.

Lemma trimRightByte_decomp s c :
  exists k, s = trimRightByte s c +:+ repeat_byte c k.
Proof.
  induction s as [|a s [k IH]]; [by exists 0%nat |]. simpl.
  destruct (trimRightByte s c) as [|b r] eqn:E.
  - destruct (Ascii.eqb a c) eqn:Ea.
    + apply Ascii.eqb_eq in Ea as ->. exists (S k).
      rewrite append_nil_l in *. cbn [repeat_byte]. by rewrite <- IH.
    + exists k. rewrite append_cons, append_nil_l in *. by rewrite <- IH.
  - exists k. rewrite !append_cons in *. by rewrite <- IH.
Qed.

(** ** The repository's test tables *)

(** [TestValidate]. *)
Example Validate_test_table :
  Validate "hello world" "hello world" = true /\
  Validate (String.append "hello world" (String newline EmptyString)) "hello world" = true /\
  Validate "hello world" (String.append "hello world" (String newline EmptyString)) = true /\
  Validate "hello" "world" = false /\
  Validate EmptyString EmptyString = true.
Proof. repeat split. Qed.

(** [TestScore]. *)
Example Score_test_table :
  Score 9 9 = ThreeStar /\ Score 5 9 = ThreeStar /\ Score 13 9 = TwoStar /\
  Score 11 9 = TwoStar /\ Score 14 9 = OneStar /\ Score 100 9 = OneStar.
Proof. repeat split. Qed.

(** Leading and internal newlines survive the trimming. *)
Example TrimRight_newline_keeps_inner :
  TrimRight_newline
    (String newline (String "a" (String newline (String "b"
       (String newline (String newline EmptyString))))))
  = String newline (String "a" (String newline (String "b" EmptyString))).
Proof. reflexivity. Qed.

(** ** C1: the completion check *)

(** C1, counterexample. With the goal ["a"] and the current text ["a\n\n"]
    the check that trims one terminator per side ([spec_Complete]) answers
    [false], while [Validate] answers [true]: [TrimRight] removes the whole
    run of trailing newlines. *)
Lemma Validate_accepts_two_trailing_newlines :
  spec_Complete (String "a" (String newline (String newline EmptyString))) "a" = false /\
  Validate (String "a" (String newline (String newline EmptyString))) "a" = true.
Proof. split; reflexivity. Qed.

(** C1, as amended. [Validate] removes every trailing newline of both
    strings and nothing else (what is left is a prefix that does not end in
    a newline, so leading and internal newlines stay), and it answers [true]
    exactly when the two strings are one common text followed by any number
    of newlines on either side. *)
Theorem Validate_iff_same_up_to_trailing_newlines (current target : string) :
  (Validate current target = true <->
     exists core m n,
       current = core +:+ repeat_byte newline m /\
       target = core +:+ repeat_byte newline n) /\
  (forall s, exists k,
       s = TrimRight_newline s +:+ repeat_byte newline k /\
       ends_with newline (TrimRight_newline s) = false).
Proof.
  split.
  - unfold Validate. rewrite String.eqb_eq. split.
    + intros E.
      destruct (trimRightByte_decomp current newline) as [m Hm].
      destruct (trimRightByte_decomp target newline) as [n Hn].
      exists (TrimRight_newline current), m, n. split; [exact Hm |].
      unfold TrimRight_newline in *. rewrite E. exact Hn.
    + intros (core & m & n & -> & ->). unfold TrimRight_newline.
      by rewrite !trimRightByte_repeat.
  - intros s. destruct (trimRightByte_decomp s newline) as [k Hk].
    exists k. split; [exact Hk | apply trimRightByte_no_trailing].
Qed.

(** ** C2: scoring *)






(** ** C3, C4: merging a result into the store *)

(** The guard of [SetBest] on a key that is present. *)
Lemma SetBest_present (s : Store) id existing stars ks :
  Results s !! id = Some existing ->
  SetBest s id stars ks =
    if (stars >? Stars existing)
       || ((stars =? Stars existing) && (ks <? Keystrokes existing))
    then mkStore (dir s) (<[id := mkResult stars ks]> (Results s))
    else s.
Proof.
  intros H. unfold SetBest, GetBest. rewrite H.
  rewrite bool_decide_eq_true_2 by eauto. reflexivity.
Qed.

Lemma SetBest_absent (s : Store) id stars ks :
  Results s !! id = None ->
  SetBest s id stars ks =
    mkStore (dir s) (<[id := mkResult stars ks]> (Results s)).
Proof.
  intros H. unfold SetBest. rewrite H.
  rewrite bool_decide_eq_false_2; [done |]. by intros [? ?].
Qed.

Lemma SetBest_other (s : Store) id id' stars ks :
  id <> id' -> Results (SetBest s id stars ks) !! id' = Results s !! id'.
Proof.
  intros Hne. unfold SetBest. case_match; [| done].
  simpl. by rewrite lookup_insert_ne.
Qed.

(** C3. For a puzzle with a stored result: if the new rating is strictly
    better, or equal with strictly fewer keystrokes, the new result is
    stored in its place; in every other case the store is unchanged. The
    results of other puzzles are never touched. Merging (3 stars, 12) into
    a stored (2 stars, 10) yields (3 stars, 12). *)
Theorem SetBest_replaces_iff_better (s : Store) (id : string)
    (existing : PuzzleResult) (stars : StarRating) (ks : Z) :
  Results s !! id = Some existing ->
  (stars > Stars existing \/
     (stars = Stars existing /\ ks < Keystrokes existing) ->
   SetBest s id stars ks =
     mkStore (dir s) (<[id := mkResult stars ks]> (Results s)) /\
   GetBest (SetBest s id stars ks) id = mkResult stars ks) /\
  (~ (stars > Stars existing \/
        (stars = Stars existing /\ ks < Keystrokes existing)) ->
   SetBest s id stars ks = s /\
   GetBest (SetBest s id stars ks) id = existing) /\
  (forall id', id <> id' ->
     Results (SetBest s id stars ks) !! id' = Results s !! id') /\
  (existing = mkResult TwoStar 10 ->
   GetBest (SetBest s id ThreeStar 12) id = mkResult ThreeStar 12).
Proof.
  intros Hex. repeat split.
  - rewrite (SetBest_present _ _ _ _ _ Hex).
    case_match eqn:E; [done |].
    apply orb_false_iff in E as [E1 E2]. apply andb_false_iff in E2.
    rewrite Z.gtb_ltb, Z.ltb_ge in E1.
    rewrite Z.eqb_neq, Z.ltb_ge in E2. lia.
  - rewrite (SetBest_present _ _ _ _ _ Hex).
    case_match eqn:E.
    + unfold GetBest. simpl. by rewrite lookup_insert_eq.
    + apply orb_false_iff in E as [E1 E2]. apply andb_false_iff in E2.
      rewrite Z.gtb_ltb, Z.ltb_ge in E1.
      rewrite Z.eqb_neq, Z.ltb_ge in E2. lia.
  - rewrite (SetBest_present _ _ _ _ _ Hex).
    case_match eqn:E; [| done].
    apply orb_true_iff in E. rewrite andb_true_iff in E.
    rewrite Z.gtb_ltb, Z.ltb_lt, Z.eqb_eq, Z.ltb_lt in E. lia.
  - rewrite (SetBest_present _ _ _ _ _ Hex).
    case_match eqn:E.
    + apply orb_true_iff in E. rewrite andb_true_iff in E.
      rewrite Z.gtb_ltb, Z.ltb_lt, Z.eqb_eq, Z.ltb_lt in E. lia.
    + unfold GetBest. by rewrite Hex.
  - intros id' Hne. by apply SetBest_other.
  - intros ->. rewrite (SetBest_present _ _ _ _ _ Hex). simpl.
    unfold GetBest. simpl. by rewrite lookup_insert_eq.
Qed.

(** A store holding (2 stars, 10) for one puzzle and a result for another;
    (3 stars, 12) replaces the first and leaves the second. *)
Lemma SetBest_replaces_iff_better_witness :
  GetBest (SetBest (mkStore ".vimgym"
                      (<["hjkl-01" := mkResult TwoStar 10]>
                         (<["word-01" := mkResult OneStar 30]> ∅)))
             "hjkl-01" ThreeStar 12) "hjkl-01" = mkResult ThreeStar 12 /\
  Results (SetBest (mkStore ".vimgym"
                      (<["hjkl-01" := mkResult TwoStar 10]>
                         (<["word-01" := mkResult OneStar 30]> ∅)))
             "hjkl-01" ThreeStar 12) !! "word-01" = Some (mkResult OneStar 30).
Proof.
  set (s := mkStore ".vimgym"
              (<["hjkl-01" := mkResult TwoStar 10]>
                 (<["word-01" := mkResult OneStar 30]> ∅))).
  assert (Results s !! "hjkl-01" = Some (mkResult TwoStar 10)) as Hex
    by reflexivity.
  destruct (SetBest_replaces_iff_better s "hjkl-01" _ ThreeStar 12 Hex)
    as (_ & _ & Hother & Hpart).
  split.
  - apply Hpart. reflexivity.
  - rewrite Hother; [reflexivity | discriminate].
Defined.

(** C4, counterexample. Merging (2 stars, 7) into a stored (2 stars, 10)
    does not leave the stored result unchanged. *)
Lemma SetBest_equal_rating_fewer_keystrokes_changes :
  GetBest (SetBest (mkStore ".vimgym" (<["hjkl-01" := mkResult TwoStar 10]> ∅))
             "hjkl-01" TwoStar 7) "hjkl-01"
  <> mkResult TwoStar 10.
Proof. vm_compute. discriminate. Qed.

(** C4, as amended. Merging (2 stars, 7) into a stored (2 stars, 10)
    replaces the stored result by (2 stars, 7): the ratings are equal and
    the new keystroke count is strictly smaller. *)
Theorem SetBest_equal_rating_fewer_keystrokes (s : Store) (id : string) :
  Results s !! id = Some (mkResult TwoStar 10) ->
  SetBest s id TwoStar 7 =
    mkStore (dir s) (<[id := mkResult TwoStar 7]> (Results s)) /\
  GetBest (SetBest s id TwoStar 7) id = mkResult TwoStar 7.
Proof.
  intros Hex. rewrite (SetBest_present _ _ _ _ _ Hex). simpl. split; [done |].
  unfold GetBest. simpl. by rewrite lookup_insert_eq.
Qed.

Lemma SetBest_equal_rating_fewer_keystrokes_witness :
  GetBest (SetBest (mkStore ".vimgym" (<["hjkl-01" := mkResult TwoStar 10]> ∅))
             "hjkl-01" TwoStar 7) "hjkl-01"
  = mkResult TwoStar 7.
Proof.
  apply (SetBest_equal_rating_fewer_keystrokes
           (mkStore ".vimgym" (<["hjkl-01" := mkResult TwoStar 10]> ∅)) "hjkl-01").
  reflexivity.
Defined.

(** ** C9: unlocking a level *)

Lemma GetPuzzlesForLevel_In (puzzles : list Puzzle) (level : Z) (p : Puzzle) :
  In p (GetPuzzlesForLevel puzzles level) <-> In p puzzles /\ Level p = level.
Proof.
  induction puzzles as [|q rest IH]; simpl; [tauto |].
  destruct (Z.eqb_spec (Level q) level) as [E | E]; simpl; rewrite IH.
  - split; [intros [-> | [? ?]]; auto | intros [[-> | ?] ?]; auto].
  - split; [intros [? ?]; auto | intros [[-> | ?] ?]; [done | auto]].
Qed.

Lemma all_have_one_star_spec (s : Store) (ps : list Puzzle) :
  all_have_one_star s ps = true <->
  forall p, In p ps -> OneStar <= Stars (GetBest s (ID p)).
Proof.
  induction ps as [|q rest IH]; simpl.
  - split; [intros _ p [] | done].
  - destruct (Z.ltb_spec (Stars (GetBest s (ID q))) OneStar) as [Hlt | Hge].
    + split; [done |]. intros H. specialize (H q (or_introl eq_refl)). lia.
    + rewrite IH. split.
      * intros H p [<- | Hin]; auto.
      * intros H p Hin. apply H. by right.
Qed.

(** A rating of at least one star read through [GetBest] is a stored one. *)
Lemma GetBest_one_star (s : Store) (id : string) :
  OneStar <= Stars (GetBest s id) <->
  exists r, Results s !! id = Some r /\ OneStar <= Stars r.
Proof.
  unfold GetBest. destruct (Results s !! id) as [r |]; simpl.
  - split; [eauto | by intros (r' & [= ->] & ?)].
  - unfold OneStar. split; [lia | by intros (r' & ? & ?)].
Qed.

(** C9, counterexample. Level 0 is not the first level, and the one puzzle
    of level -1 has no stored result, yet level 0 is reported unlocked. *)
Lemma IsLevelUnlocked_level_zero :
  IsLevelUnlocked (mkStore ".vimgym" ∅) 0 [mkPuzzle "warmup-01" 0 (-1) 5] = true /\
  ~ (0 = 1 \/
     forall p, In p [mkPuzzle "warmup-01" 0 (-1) 5] -> Level p = 0 - 1 ->
       exists r, Results (mkStore ".vimgym" ∅) !! ID p = Some r /\
                 OneStar <= Stars r).
Proof.
  split; [reflexivity |].
  intros [H | H]; [discriminate |].
  destruct (H _ (or_introl eq_refl) eq_refl) as (r & Hr & _).
  simpl in Hr. by rewrite lookup_empty in Hr.
Qed.

(** C9, as amended. For every level number [L] (an [int]) and every store,
    [IsLevelUnlocked] answers [true] iff [L <= 1] (the first level, or any
    number below it), or every puzzle whose level is [L - 1] has a stored
    rating of at least one star; the first level is unlocked whatever is
    stored. *)
Theorem IsLevelUnlocked_iff (s : Store) (level : Z) (allPuzzles : list Puzzle) :
  GoInt.in_range level ->
  (IsLevelUnlocked s level allPuzzles = true <->
     level <= 1 \/
     forall p, In p allPuzzles -> Level p = level - 1 ->
       exists r, Results s !! ID p = Some r /\ OneStar <= Stars r) /\
  IsLevelUnlocked s 1 allPuzzles = true.
Proof.
  intros Hr. split; [| reflexivity].
  unfold IsLevelUnlocked.
  destruct (Z.leb_spec level 1) as [Hle | Hgt]; [by split; auto |].
  assert (GoInt.sub level 1 = level - 1) as ->.
  { apply GoInt_wrap_small.
    unfold GoInt.in_range, GoInt.MinInt, GoInt.MaxInt in *. lia. }
  assert (all_have_one_star s (GetPuzzlesForLevel allPuzzles (level - 1)) = true <->
          forall p, In p allPuzzles -> Level p = level - 1 ->
            exists r, Results s !! ID p = Some r /\ OneStar <= Stars r) as Hloop.
  { rewrite all_have_one_star_spec. split.
    - intros H p Hin Hl. apply GetBest_one_star, H.
      apply GetPuzzlesForLevel_In. auto.
    - intros H p Hin. apply GetPuzzlesForLevel_In in Hin as [Hin Hl].
      apply GetBest_one_star. auto. }
  destruct (GetPuzzlesForLevel allPuzzles (level - 1)) as [|q rest] eqn:E.
  - simpl. split; [| done]. intros _. right. apply Hloop. reflexivity.
  - change ((length (q :: rest) =? 0)%nat) with false. cbv iota.
    rewrite Hloop. split; [auto |]. intros [? | H]; [lia | exact H].
Qed.

(** Level 2 with both puzzles of level 1 cleared, and level 2 with one of
    them never attempted. *)
Lemma IsLevelUnlocked_iff_witness :
  IsLevelUnlocked
    (mkStore ".vimgym"
       (<["hjkl-01" := mkResult ThreeStar 4]> (<["hjkl-02" := mkResult OneStar 21]> ∅)))
    2 [mkPuzzle "hjkl-01" 1 1 4; mkPuzzle "hjkl-02" 1 1 6; mkPuzzle "word-01" 1 2 5]
  = true /\
  IsLevelUnlocked
    (mkStore ".vimgym" (<["hjkl-01" := mkResult ThreeStar 4]> ∅))
    2 [mkPuzzle "hjkl-01" 1 1 4; mkPuzzle "hjkl-02" 1 1 6; mkPuzzle "word-01" 1 2 5]
  <> true.
Proof.
  assert (GoInt.in_range 2) as H2 by (vm_compute; split; discriminate).
  split.
  - match goal with |- IsLevelUnlocked ?s 2 ?l = true =>
      destruct (IsLevelUnlocked_iff s 2 l H2) as [[_ Hiff] _]
    end.
    apply Hiff. right.
    intros p [<- | [<- | [<- | []]]] Hl; simpl in *;
      [eexists; split; [reflexivity | vm_compute; discriminate] ..
      | discriminate].
  - match goal with |- IsLevelUnlocked ?s 2 ?l <> true =>
      destruct (IsLevelUnlocked_iff s 2 l H2) as [[Hiff _] _]
    end.
    intros H. apply Hiff in H as [H | H]; [lia |].
    destruct (H (mkPuzzle "hjkl-02" 1 1 6)) as (r & Hr & _);
      [simpl; auto | reflexivity |].
    vm_compute in Hr. discriminate.
Defined.

(** ** The sequencer: what the helpers leave alone *)

(** Opens a returned [Some (view, result)]. *)
Ltac returned :=
  let H := fresh "Hret" in
  intros H; inversion H; subst; clear H.

(** [applyImmediateMode] writes the mode and nothing else. *)
Lemma applyImmediateMode_eq (v : PuzzleView) (keys : string) :
  applyImmediateMode v keys = set_mode v (mode (applyImmediateMode v keys)).
Proof.
  unfold applyImmediateMode. destruct v. repeat case_match; reflexivity.
Qed.

Lemma applyImmediateMode_Esc (v : PuzzleView) :
  applyImmediateMode v "<Esc>" = set_mode v "NORMAL".
Proof. reflexivity. Qed.

(** [inputAndSync] touches the client and nothing else, and always returns
    the sync tick. *)
Lemma inputAndSync_eq (v : PuzzleView) (keys : string) :
  inputAndSync v keys =
    (set_nvim v (nvim (fst (inputAndSync v keys))), CmdSyncTick).
Proof. unfold inputAndSync. destruct v as [[c |] ? ? ? ? ? ? ? ?]; reflexivity. Qed.

Lemma inputAndSync_attached (v : PuzzleView) (c : Client) (keys : string) :
  nvim v = Some c ->
  inputAndSync v keys = (set_nvim v (Some (Client_Input c keys)), CmdSyncTick).
Proof. unfold inputAndSync. by intros ->. Qed.

Lemma append_nonempty (s keys : string) :
  keys <> EmptyString -> s +:+ keys <> EmptyString.
Proof. destruct s; [by rewrite append_nil_l | by rewrite append_cons]. Qed.

Lemma flags_need_keys_nonempty (v : PuzzleView) :
  pendingKeys v <> EmptyString -> flags_need_keys v.
Proof. intros H E. by destruct H. Qed.

Lemma dispatch_pending_flags (v v' : PuzzleView) combined sent :
  dispatch_pending v combined = Some (v', sent) -> flags_need_keys v'.
Proof.
  unfold dispatch_pending, nvim_Input. destruct v as [[c |] ? ? ? ? ? ? ? ?]; simpl;
    [| discriminate].
  returned. intros _. simpl. auto.
Qed.

Lemma handleOperatorPending_flags (v v' : PuzzleView) keys sent :
  keys <> EmptyString ->
  handleOperatorPending v keys = Some (v', sent) -> flags_need_keys v'.
Proof.
  intros Hk. unfold handleOperatorPending.
  repeat case_match; try (by apply dispatch_pending_flags);
    returned; apply flags_need_keys_nonempty; simpl;
    by apply append_nonempty.
Qed.

(** One key event keeps the flags tied to the key text. *)
Lemma inputAndSync_flags (w v' : PuzzleView) k k' cmd :
  flags_need_keys w ->
  inputAndSync (applyImmediateMode w k) k' = (v', cmd) -> flags_need_keys v'.
Proof.
  intros Hw. rewrite inputAndSync_eq, applyImmediateMode_eq.
  returned. exact Hw.
Qed.

(** One key event keeps the flags tied to the key text. *)
Lemma handleNvimInput_flags (v v' : PuzzleView) keys cmd :
  flags_need_keys v ->
  handleNvimInput v keys = Some (v', cmd) -> flags_need_keys v'.
Proof.
  intros Hv. unfold handleNvimInput.
  destruct (String.eqb_spec keys EmptyString) as [-> | Hk];
    [returned; exact Hv |].
  set (v1 := set_keystrokes v (GoInt.add (keystrokes v) 1)).
  assert (flags_need_keys v1) as Hv1 by exact Hv.
  assert (flags_need_keys (clearPending v1)) as Hclear by (intros _; simpl; auto).
  assert (flags_need_keys (set_pendingCount v1 EmptyString)) as Hcount by exact Hv.
  destruct (negb (String.eqb (mode v1) "NORMAL"));
    [returned; (eapply inputAndSync_flags; [| eassumption]; assumption) |].
  destruct (String.eqb_spec (pendingKeys v1) EmptyString) as [Ep | Ep]; simpl negb;
    cbv iota.
  - (* no buffered command: a leading count, or an idle sequencer *)
    repeat case_match; returned;
      first
        [ eapply inputAndSync_flags; [| eassumption]; assumption
        | apply flags_need_keys_nonempty; simpl; by apply append_nonempty
        | apply flags_need_keys_nonempty; simpl; exact Hk
        | exact Hv1 ].
  - destruct (String.eqb keys "<Esc>");
      [returned; (eapply inputAndSync_flags; [| eassumption]; assumption) |].
    destruct (pendingOperator v1).
    + destruct (handleOperatorPending v1 keys) as [[w sent] |] eqn:Eop;
        simpl; [| discriminate].
      apply handleOperatorPending_flags in Eop; [| exact Hk].
      destruct sent; returned; [| exact Eop].
      by rewrite applyImmediateMode_eq.
    + case_match; returned; (eapply inputAndSync_flags; [| eassumption]; assumption).
Qed.

(** Every view of a session has its flags tied to the key text. *)
Lemma reachable_flags (v : PuzzleView) : reachable v -> flags_need_keys v.
Proof.
  induction 1 as [nv | v c _ IH _ | v m _ IH | v _ _ | v _ _ | v keys v' cmd _ IH Hstep].
  - intros _. simpl. auto.
  - exact IH.
  - exact IH.
  - intros _. simpl. auto.
  - intros _. simpl. auto.
  - eapply handleNvimInput_flags; eauto.
Qed.

(** ** C5: escape while a command is buffered *)

(** C5. In every view a session can reach, with an engine client attached
    and some multi-key state pending (key text, a leading count or any of
    the flags), the escape key is counted, every pending field is cleared,
    the client receives exactly one more command, ["<Esc>"] alone, and the
    mode estimate becomes ["NORMAL"], whatever was buffered. *)
Theorem escape_clears_pending (v : PuzzleView) (c : Client) :
  reachable v -> nvim v = Some c -> is_pending v = true ->
  exists v',
    handleNvimInput v "<Esc>" = Some (v', CmdSyncTick) /\
    pending_cleared v' /\
    nvim v' = Some (mkClient (inputs c ++ ["<Esc>"])) /\
    mode v' = "NORMAL" /\
    keystrokes v' = GoInt.add (keystrokes v) 1.
Proof.
  intros Hreach Hc Hp. pose proof (reachable_flags v Hreach) as Hf.
  unfold flags_need_keys in Hf. unfold is_pending in Hp.
  destruct v as [nv ks md pk po pn pt ph pc]. simpl in *. subst nv.
  unfold handleNvimInput. cbn [String.eqb Ascii.eqb Bool.eqb].
  cbn [mode pendingKeys pendingCount keystrokes set_keystrokes nvim
       pendingOperator pendingNeedsChar pendingTextObject pendingHasCount].
  rewrite !applyImmediateMode_Esc.
  destruct (String.eqb_spec md "NORMAL") as [-> | Hmd]; cbn [negb].
  - destruct (String.eqb_spec pk EmptyString) as [-> | Hpk]; cbn [negb].
    + destruct (Hf eq_refl) as (-> & -> & -> & ->).
      destruct (String.eqb_spec pc EmptyString) as [-> | Hpc]; cbn [negb];
        [discriminate Hp |].
      eexists. split; [reflexivity |]. repeat split.
    + eexists. split; [reflexivity |]. repeat split.
  - eexists. split; [reflexivity |]. repeat split.
Qed.

(** After ["d"], ["2"], ["i"] the sequencer holds ["d2i"] with three flags
    set; escape clears it and only ["<Esc>"] reaches the engine. *)
Lemma escape_clears_pending_witness :
  exists v',
    handleNvimInput
      (mkPuzzleView (Some (mkClient [])) 3 "NORMAL" "d2i" true false true true
         EmptyString) "<Esc>" = Some (v', CmdSyncTick) /\
    pending_cleared v' /\
    nvim v' = Some (mkClient ["<Esc>"]) /\
    mode v' = "NORMAL" /\
    keystrokes v' = 4.
Proof.
  apply (escape_clears_pending
           (mkPuzzleView (Some (mkClient [])) 3 "NORMAL" "d2i" true false true true
              EmptyString) (mkClient [])).
  - apply (reach_key
             (mkPuzzleView (Some (mkClient [])) 2 "NORMAL" "d2" true false false true
                EmptyString) "i" _ CmdNil); [| reflexivity].
    apply (reach_key
             (mkPuzzleView (Some (mkClient [])) 1 "NORMAL" "d" true false false false
                EmptyString) "2" _ CmdNil); [| reflexivity].
    apply (reach_key (NewPuzzleView (Some (mkClient []))) "d" _ CmdNil);
      [apply reach_new | reflexivity].
  - reflexivity.
  - reflexivity.
Defined.

(** ** C6, C7, C8: three key sequences from an idle sequencer *)

(** An idle view in normal mode is this record. *)
Lemma idle_view (v : PuzzleView) (c : Client) :
  mode v = "NORMAL" -> pending_cleared v -> nvim v = Some c ->
  v = mkPuzzleView (Some c) (keystrokes v) "NORMAL"
        EmptyString false false false false EmptyString.
Proof.
  destruct v; unfold pending_cleared; simpl.
  intros -> (-> & -> & -> & -> & -> & ->) ->. reflexivity.
Qed.

(** Three increments of a counter that stays in range add three. *)
Lemma GoInt_add_three (k : Z) :
  0 <= k -> k + 3 <= GoInt.MaxInt ->
  GoInt.add (GoInt.add (GoInt.add k 1) 1) 1 = k + 3.
Proof.
  intros H0 H3. unfold GoInt.add.
  assert (forall z, 0 <= z -> z <= GoInt.MaxInt -> GoInt.wrap z = z) as Hw.
  { intros z Hz Hz'. apply GoInt_wrap_small.
    unfold GoInt.in_range, GoInt.MinInt, GoInt.MaxInt in *. lia. }
  rewrite (Hw (k + 1)) by lia. rewrite (Hw (k + 1 + 1)) by lia.
  rewrite Hw by lia. lia.
Qed.

Lemma GoInt_add_two (k : Z) :
  0 <= k -> k + 2 <= GoInt.MaxInt ->
  GoInt.add (GoInt.add k 1) 1 = k + 2.
Proof.
  intros H0 H2. unfold GoInt.add.
  assert (forall z, 0 <= z -> z <= GoInt.MaxInt -> GoInt.wrap z = z) as Hw.
  { intros z Hz Hz'. apply GoInt_wrap_small.
    unfold GoInt.in_range, GoInt.MinInt, GoInt.MaxInt in *. lia. }
  rewrite (Hw (k + 1)) by lia. rewrite Hw by lia. lia.
Qed.

(** C6. From normal mode with nothing pending and a client attached, the
    keys ["d"], ["i"], ["w"]: the first two return no command and leave the
    client as it was, the third hands the client the single command
    ["diw"]; each key event increments the counter once, three in all. *)
Theorem operator_text_object_sequence (v : PuzzleView) (c : Client) :
  mode v = "NORMAL" -> pending_cleared v -> nvim v = Some c ->
  exists v1 v2 v3,
    handleNvimInput v "d" = Some (v1, CmdNil) /\ nvim v1 = Some c /\
    handleNvimInput v1 "i" = Some (v2, CmdNil) /\ nvim v2 = Some c /\
    handleNvimInput v2 "w" = Some (v3, CmdSyncTick) /\
    nvim v3 = Some (mkClient (inputs c ++ ["diw"])) /\
    keystrokes v1 = GoInt.add (keystrokes v) 1 /\
    keystrokes v2 = GoInt.add (keystrokes v1) 1 /\
    keystrokes v3 = GoInt.add (keystrokes v2) 1 /\
    (0 <= keystrokes v -> keystrokes v + 3 <= GoInt.MaxInt ->
     keystrokes v3 = keystrokes v + 3) /\
    pending_cleared v3.
Proof.
  intros Hm Hp Hc. rewrite (idle_view v c Hm Hp Hc).
  generalize (keystrokes v) as k. intros k. cbn [keystrokes].
  exists (mkPuzzleView (Some c) (GoInt.add k 1) "NORMAL"
            "d" true false false false EmptyString).
  exists (mkPuzzleView (Some c) (GoInt.add (GoInt.add k 1) 1) "NORMAL"
            "di" true false true false EmptyString).
  exists (mkPuzzleView (Some (mkClient (inputs c ++ ["diw"])))
            (GoInt.add (GoInt.add (GoInt.add k 1) 1) 1) "NORMAL"
            EmptyString false false false false EmptyString).
  repeat split; try reflexivity. apply GoInt_add_three.
Qed.

(** The sequence in a fresh view: the counter goes from 0 to 3. *)
Lemma operator_text_object_sequence_witness :
  exists v1 v2 v3,
    handleNvimInput (NewPuzzleView (Some (mkClient []))) "d" = Some (v1, CmdNil) /\
    nvim v1 = Some (mkClient []) /\
    handleNvimInput v1 "i" = Some (v2, CmdNil) /\ nvim v2 = Some (mkClient []) /\
    handleNvimInput v2 "w" = Some (v3, CmdSyncTick) /\
    nvim v3 = Some (mkClient ["diw"]) /\
    keystrokes v3 = 3.
Proof.
  destruct (operator_text_object_sequence
              (NewPuzzleView (Some (mkClient []))) (mkClient []))
    as (v1 & v2 & v3 & H1 & N1 & H2 & N2 & H3 & N3 & _ & _ & _ & K & _).
  - reflexivity.
  - repeat split.
  - reflexivity.
  - exists v1, v2, v3. repeat split; try assumption.
    apply K; vm_compute; discriminate.
Defined.

(** C7. From normal mode with nothing pending and a client attached, the
    keys ["4"], ["w"]: ["4"] returns no command and leaves the client as it
    was, ["w"] hands the client the single command ["4w"]; the counter is
    incremented once per key event, two in all, although the command has
    two characters. *)
Theorem count_motion_sequence (v : PuzzleView) (c : Client) :
  mode v = "NORMAL" -> pending_cleared v -> nvim v = Some c ->
  exists v1 v2,
    handleNvimInput v "4" = Some (v1, CmdNil) /\ nvim v1 = Some c /\
    handleNvimInput v1 "w" = Some (v2, CmdSyncTick) /\
    nvim v2 = Some (mkClient (inputs c ++ ["4w"])) /\
    keystrokes v1 = GoInt.add (keystrokes v) 1 /\
    keystrokes v2 = GoInt.add (keystrokes v1) 1 /\
    (0 <= keystrokes v -> keystrokes v + 2 <= GoInt.MaxInt ->
     keystrokes v2 = keystrokes v + 2) /\
    pending_cleared v2.
Proof.
  intros Hm Hp Hc. rewrite (idle_view v c Hm Hp Hc).
  generalize (keystrokes v) as k. intros k. cbn [keystrokes].
  exists (mkPuzzleView (Some c) (GoInt.add k 1) "NORMAL"
            EmptyString false false false false "4").
  exists (mkPuzzleView (Some (mkClient (inputs c ++ ["4w"])))
            (GoInt.add (GoInt.add k 1) 1) "NORMAL"
            EmptyString false false false false EmptyString).
  repeat split; try reflexivity. apply GoInt_add_two.
Qed.

Lemma count_motion_sequence_witness :
  exists v1 v2,
    handleNvimInput (NewPuzzleView (Some (mkClient []))) "4" = Some (v1, CmdNil) /\
    nvim v1 = Some (mkClient []) /\
    handleNvimInput v1 "w" = Some (v2, CmdSyncTick) /\
    nvim v2 = Some (mkClient ["4w"]) /\
    keystrokes v2 = 2.
Proof.
  destruct (count_motion_sequence
              (NewPuzzleView (Some (mkClient []))) (mkClient []))
    as (v1 & v2 & H1 & N1 & H2 & N2 & _ & _ & K & _).
  - reflexivity.
  - repeat split.
  - reflexivity.
  - exists v1, v2. repeat split; try assumption.
    apply K; vm_compute; discriminate.
Defined.

(** C8. From normal mode with nothing pending and a client attached, the
    keys ["d"], ["d"]: the first is buffered as an operator without a count,
    the second hands the client the single command ["dd"] at once and
    leaves nothing pending. *)
Theorem double_operator_sequence (v : PuzzleView) (c : Client) :
  mode v = "NORMAL" -> pending_cleared v -> nvim v = Some c ->
  exists v1 v2,
    handleNvimInput v "d" = Some (v1, CmdNil) /\ nvim v1 = Some c /\
    pendingKeys v1 = "d" /\ pendingOperator v1 = true /\
    pendingHasCount v1 = false /\
    handleNvimInput v1 "d" = Some (v2, CmdSyncTick) /\
    nvim v2 = Some (mkClient (inputs c ++ ["dd"])) /\
    pending_cleared v2.
Proof.
  intros Hm Hp Hc. rewrite (idle_view v c Hm Hp Hc).
  generalize (keystrokes v) as k. intros k.
  exists (mkPuzzleView (Some c) (GoInt.add k 1) "NORMAL"
            "d" true false false false EmptyString).
  exists (mkPuzzleView (Some (mkClient (inputs c ++ ["dd"])))
            (GoInt.add (GoInt.add k 1) 1) "NORMAL"
            EmptyString false false false false EmptyString).
  repeat split; reflexivity.
Qed.

Lemma double_operator_sequence_witness :
  exists v1 v2,
    handleNvimInput (NewPuzzleView (Some (mkClient []))) "d" = Some (v1, CmdNil) /\
    handleNvimInput v1 "d" = Some (v2, CmdSyncTick) /\
    nvim v2 = Some (mkClient ["dd"]) /\
    pending_cleared v2.
Proof.
  destruct (double_operator_sequence
              (NewPuzzleView (Some (mkClient []))) (mkClient []))
    as (v1 & v2 & H1 & _ & _ & _ & _ & H2 & N2 & P2).
  - reflexivity.
  - repeat split.
  - reflexivity.
  - exists v1, v2. repeat split; try assumption; apply P2.
Defined.

(** ** C10: the empty key string *)

(** C10. [handleNvimInput] on the empty key string returns the view it was
    given (counter, pending fields, mode and client included) and no
    command. [translateKey] yields the empty string for a key event that is
    none of the special keys or runes and whose name does not start with
    ["ctrl+"], so [Update] leaves the view as it was for such an event. *)
Theorem empty_key_is_noop (v : PuzzleView) :
  handleNvimInput v EmptyString = Some (v, CmdNil) /\
  (forall msg code,
     KeyMsg_Type msg = KeyOther code ->
     HasPrefix (KeyMsg_String msg) "ctrl+" = false ->
     translateKey msg = EmptyString /\
     Update_key_default v msg = Some (v, CmdNil)).
Proof.
  split; [reflexivity |].
  intros msg code Ht Hp.
  assert (translateKey msg = EmptyString) as E
    by (unfold translateKey; rewrite Ht, Hp; reflexivity).
  split; [exact E |]. unfold Update_key_default. by rewrite E.
Qed.

(** A function key (here with type code 20 and name ["f1"]) arriving while
    ["d2"] is buffered changes nothing. *)
Lemma empty_key_is_noop_witness :
  Update_key_default
    (mkPuzzleView (Some (mkClient ["w"])) 2 "NORMAL" "d2" true false false true
       EmptyString)
    (mkKeyMsg (KeyOther 20) EmptyString "f1")
  = Some (mkPuzzleView (Some (mkClient ["w"])) 2 "NORMAL" "d2" true false false true
            EmptyString, CmdNil).
Proof.
  destruct (empty_key_is_noop
              (mkPuzzleView (Some (mkClient ["w"])) 2 "NORMAL" "d2" true false false
                 true EmptyString)) as [_ H].
  destruct (H (mkKeyMsg (KeyOther 20) EmptyString "f1") 20) as [_ Hu];
    [reflexivity | reflexivity | exact Hu].
Defined.

(** * Further properties of the code *)

(** ** Scoring and completion *)

(** More keystrokes never earn more stars, whatever the par. *)
Theorem Score_monotone (k1 k2 par : Z) :
  k1 <= k2 -> Score k2 par <= Score k1 par.
Proof.
  intros H. unfold Score, ThreeStar, TwoStar, OneStar.
  repeat case_match; lia.
Qed.

Lemma Score_monotone_witness : Score 14 9 <= Score 10 9.
Proof. apply Score_monotone. lia. Defined.

(** [Validate] is an equivalence on texts: a text completes itself, the
    roles of buffer and goal can be swapped, and two texts that complete a
    common third complete each other. *)
Theorem Validate_equivalence :
  (forall t, Validate t t = true) /\
  (forall a b, Validate a b = Validate b a) /\
  (forall a b c, Validate a b = true -> Validate b c = true ->
                 Validate a c = true).
Proof.
  unfold Validate. repeat split.
  - intros t. apply String.eqb_refl.
  - intros a b. apply String.eqb_sym.
  - intros a b c. rewrite !String.eqb_eq. congruence.
Qed.

(** One more trailing newline on either side never changes the verdict. *)
Theorem Validate_ignores_appended_newline (current target : string) :
  Validate (current +:+ String newline EmptyString) target
    = Validate current target /\
  Validate current (target +:+ String newline EmptyString)
    = Validate current target.
Proof.
  unfold Validate, TrimRight_newline. by rewrite !trimRightByte_snoc.
Qed.

(** ** Merging results *)

Lemma SetBest_Results (s : Store) id stars ks :
  Results (SetBest s id stars ks) =
    <[id := best_of (Results s !! id) (mkResult stars ks)]> (Results s).
Proof.
  unfold SetBest, GetBest, best_of.
  destruct (Results s !! id) as [old |] eqn:E; simpl.
  - case_match; simpl; [done |]. by rewrite insert_id.
  - done.
Qed.

Lemma SetBest_dir (s : Store) id stars ks :
  dir (SetBest s id stars ks) = dir s.
Proof. unfold SetBest. by case_match. Qed.

Lemma Store_eq (s t : Store) :
  dir s = dir t -> Results s = Results t -> s = t.
Proof. destruct s, t; simpl; by intros -> ->. Qed.

Lemma GetBest_SetBest (s : Store) id stars ks :
  GetBest (SetBest s id stars ks) id
    = best_of (Results s !! id) (mkResult stars ks).
Proof. unfold GetBest. by rewrite SetBest_Results, lookup_insert_eq. Qed.

Lemma best_of_comm (o : option PuzzleResult) (a b : PuzzleResult) :
  best_of (Some (best_of o a)) b = best_of (Some (best_of o b)) a.
Proof.
  destruct a as [sa ka], b as [sb kb].
  destruct o as [[so ko] |]; unfold best_of; simpl;
    repeat (case_match; simpl in * );
    repeat match goal with
    | H : _ || _ = true |- _ => apply orb_true_iff in H
    | H : _ || _ = false |- _ => apply orb_false_iff in H as [? ?]
    | H : _ && _ = true |- _ => apply andb_true_iff in H as [? ?]
    | H : _ && _ = false |- _ => apply andb_false_iff in H
    end;
    rewrite ?Z.gtb_ltb, ?Z.ltb_lt, ?Z.ltb_ge, ?Z.eqb_eq, ?Z.eqb_neq in *;
    try reflexivity; try (f_equal; lia); exfalso; lia.
Qed.

(** After [SetBest] the puzzle holds one of the two results, the old or
    the new, and that one is at least as good as both: at least as many
    stars, and with equal stars at most as many keystrokes. A first result
    is stored whatever it is. *)
Theorem SetBest_keeps_the_better (s : Store) (id : string)
    (stars : StarRating) (ks : Z) :
  exists r,
    Results (SetBest s id stars ks) !! id = Some r /\
    at_least_as_good (mkResult stars ks) r /\
    match Results s !! id with
    | None => r = mkResult stars ks
    | Some old => (r = old \/ r = mkResult stars ks) /\ at_least_as_good old r
    end.
Proof.
  exists (best_of (Results s !! id) (mkResult stars ks)).
  split; [by rewrite SetBest_Results, lookup_insert_eq |].
  unfold best_of, at_least_as_good.
  destruct (Results s !! id) as [[so ko] |]; simpl; [| split; [lia | done]].
  case_match eqn:E; simpl.
  - apply orb_true_iff in E. rewrite andb_true_iff in E.
    rewrite Z.gtb_ltb, Z.ltb_lt, Z.eqb_eq, Z.ltb_lt in E.
    split; [lia |]. split; [by right | lia].
  - apply orb_false_iff in E as [E1 E2]. apply andb_false_iff in E2.
    rewrite Z.gtb_ltb, Z.ltb_ge in E1. rewrite Z.eqb_neq, Z.ltb_ge in E2.
    split; [lia |]. split; [by left | lia].
Qed.

(** Merging the same result twice is merging it once. *)
Theorem SetBest_idempotent (s : Store) (id : string) (stars : StarRating) (ks : Z) :
  SetBest (SetBest s id stars ks) id stars ks = SetBest s id stars ks.
Proof.
  apply Store_eq; [by rewrite !SetBest_dir |].
  rewrite (SetBest_Results (SetBest s id stars ks)).
  apply insert_id. rewrite SetBest_Results, lookup_insert_eq. f_equal.
  unfold best_of. destruct (Results s !! id) as [[so ko] |]; simpl.
  - case_match eqn:E; simpl.
    + by rewrite Z.gtb_ltb, Z.ltb_irrefl, Z.ltb_irrefl, andb_false_r.
    + by rewrite E.
  - by rewrite Z.gtb_ltb, Z.ltb_irrefl, Z.ltb_irrefl, andb_false_r.
Qed.

(** The order in which two results are merged does not matter, for the same
    puzzle or for two different ones. *)
Theorem SetBest_commutes (s : Store) (id id' : string) (a b : StarRating)
    (ka kb : Z) :
  SetBest (SetBest s id a ka) id' b kb = SetBest (SetBest s id' b kb) id a ka.
Proof.
  apply Store_eq; [by rewrite !SetBest_dir |].
  rewrite (SetBest_Results (SetBest s id a ka)).
  rewrite (SetBest_Results (SetBest s id' b kb)).
  rewrite !SetBest_Results.
  destruct (decide (id = id')) as [<- | Hne].
  - rewrite !lookup_insert_eq, !insert_insert_eq. f_equal. apply best_of_comm.
  - rewrite lookup_insert_ne by done.
    rewrite (lookup_insert_ne _ id' id) by done.
    by apply insert_insert_ne.
Qed.

(** [SetBest] adds the puzzle to the stored ones and removes none. *)
Lemma SetBest_dom (s : Store) (id : string) (stars : StarRating) (ks : Z) :
  dom (Results (SetBest s id stars ks)) = {[id]} ∪ dom (Results s).
Proof. rewrite SetBest_Results. apply dom_insert_L. Qed.

(** ** Stars of a level, and unlocking *)

Lemma min_stars_spec (s : Store) (ps : list Puzzle) (m : StarRating) :
  min_stars s ps m <= m /\
  (forall p, In p ps -> min_stars s ps m <= Stars (GetBest s (ID p))) /\
  (min_stars s ps m = m \/
   exists p, In p ps /\ min_stars s ps m = Stars (GetBest s (ID p))).
Proof.
  revert m. induction ps as [|q rest IH]; intros m; simpl.
  - split; [lia |]. split; [by intros p [] | by left].
  - destruct (Z.ltb_spec (Stars (GetBest s (ID q))) m) as [Hlt | Hge].
    + destruct (IH (Stars (GetBest s (ID q)))) as (H1 & H2 & H3).
      split; [lia |]. split.
      * intros p [<- | Hin]; [exact H1 | by apply H2].
      * right. destruct H3 as [-> | (p & Hin & Hp)]; [exists q | exists p]; auto.
    + destruct (IH m) as (H1 & H2 & H3).
      split; [exact H1 |]. split.
      * intros p [<- | Hin]; [lia | by apply H2].
      * destruct H3 as [H3 | (p & Hin & Hp)]; [by left |].
        right. exists p. auto.
Qed.

(** [GetLevelStars] is [NoStar] for a level without puzzles. Otherwise it
    is at most three stars and at most the stored rating of every puzzle of
    the level (an unattempted puzzle counting as [NoStar]), and it is either
    three stars or the rating of one of them. *)
Theorem GetLevelStars_is_the_minimum (s : Store) (level : Z)
    (allPuzzles : list Puzzle) :
  ((forall p, In p allPuzzles -> Level p <> level) ->
   GetLevelStars s level allPuzzles = NoStar) /\
  ((exists p, In p allPuzzles /\ Level p = level) ->
   GetLevelStars s level allPuzzles <= ThreeStar /\
   (forall p, In p allPuzzles -> Level p = level ->
      GetLevelStars s level allPuzzles <= Stars (GetBest s (ID p))) /\
   (GetLevelStars s level allPuzzles = ThreeStar \/
    exists p, In p allPuzzles /\ Level p = level /\
      GetLevelStars s level allPuzzles = Stars (GetBest s (ID p)))).
Proof.
  unfold GetLevelStars. split.
  - intros Hnone.
    destruct (GetPuzzlesForLevel allPuzzles level) as [|q rest] eqn:E; [done |].
    assert (In q (GetPuzzlesForLevel allPuzzles level)) as Hq
      by (rewrite E; by left).
    apply GetPuzzlesForLevel_In in Hq as [Hq Hl]. by destruct (Hnone q Hq).
  - intros (p0 & Hin0 & Hl0).
    assert (In p0 (GetPuzzlesForLevel allPuzzles level)) as Hp0
      by (apply GetPuzzlesForLevel_In; auto).
    destruct (GetPuzzlesForLevel allPuzzles level) as [|q rest] eqn:E;
      [by destruct Hp0 |].
    change ((length (q :: rest) =? 0)%nat) with false. cbv iota.
    destruct (min_stars_spec s (q :: rest) ThreeStar) as (H1 & H2 & H3).
    split; [exact H1 |]. split.
    + intros p Hin Hl. apply H2. rewrite <- E. apply GetPuzzlesForLevel_In. auto.
    + destruct H3 as [H3 | (p & Hin & Hp)]; [by left |].
      right. exists p. rewrite <- E in Hin.
      apply GetPuzzlesForLevel_In in Hin as [? ?]. auto.
Qed.

Lemma GetLevelStars_is_the_minimum_witness :
  GetLevelStars
    (mkStore ".vimgym"
       (<["hjkl-01" := mkResult ThreeStar 4]> (<["hjkl-02" := mkResult OneStar 21]> ∅)))
    1 [mkPuzzle "hjkl-01" 1 1 4; mkPuzzle "hjkl-02" 1 1 6; mkPuzzle "word-01" 1 2 5]
  <= OneStar.
Proof.
  match goal with |- GetLevelStars ?s ?l ?all <= _ =>
    destruct (GetLevelStars_is_the_minimum s l all) as [_ H]
  end.
  destruct H as (_ & H & _).
  - exists (mkPuzzle "hjkl-02" 1 1 6). split; [simpl; auto | reflexivity].
  - apply (H (mkPuzzle "hjkl-02" 1 1 6)); [simpl; auto | reflexivity].
Defined.

(** A level above the first whose previous level has puzzles is unlocked
    exactly when the previous level shows at least one star. *)
Theorem IsLevelUnlocked_iff_previous_level_stars (s : Store) (level : Z)
    (allPuzzles : list Puzzle) :
  GoInt.in_range level -> 1 < level ->
  (exists p, In p allPuzzles /\ Level p = level - 1) ->
  (IsLevelUnlocked s level allPuzzles = true <->
   OneStar <= GetLevelStars s (level - 1) allPuzzles).
Proof.
  intros Hr Hl (p0 & Hin0 & Hl0).
  unfold IsLevelUnlocked, GetLevelStars.
  destruct (Z.leb_spec level 1) as [? | _]; [lia |].
  assert (GoInt.sub level 1 = level - 1) as ->.
  { apply GoInt_wrap_small.
    unfold GoInt.in_range, GoInt.MinInt, GoInt.MaxInt in *. lia. }
  assert (In p0 (GetPuzzlesForLevel allPuzzles (level - 1))) as Hp0
    by (apply GetPuzzlesForLevel_In; auto).
  destruct (GetPuzzlesForLevel allPuzzles (level - 1)) as [|q rest];
    [by destruct Hp0 |].
  change ((length (q :: rest) =? 0)%nat) with false. cbv iota.
  rewrite all_have_one_star_spec.
  destruct (min_stars_spec s (q :: rest) ThreeStar) as (H1 & H2 & H3).
  split.
  - intros H. destruct H3 as [-> | (p & Hin & ->)]; [done | by apply H].
  - intros H p Hin. specialize (H2 p Hin). lia.
Qed.

Lemma IsLevelUnlocked_iff_previous_level_stars_witness :
  IsLevelUnlocked
    (mkStore ".vimgym"
       (<["hjkl-01" := mkResult ThreeStar 4]> (<["hjkl-02" := mkResult OneStar 21]> ∅)))
    2 [mkPuzzle "hjkl-01" 1 1 4; mkPuzzle "hjkl-02" 1 1 6; mkPuzzle "word-01" 1 2 5]
  = true.
Proof.
  match goal with |- IsLevelUnlocked ?s ?l ?all = true =>
    apply (IsLevelUnlocked_iff_previous_level_stars s l all)
  end.
  - vm_compute. split; discriminate.
  - lia.
  - exists (mkPuzzle "hjkl-01" 1 1 4). split; [simpl; auto | reflexivity].
  - vm_compute. discriminate.
Defined.

Lemma SetBest_keeps_one_star (s : Store) id stars ks q :
  OneStar <= Stars (GetBest s q) ->
  OneStar <= Stars (GetBest (SetBest s id stars ks) q).
Proof.
  intros H. destruct (decide (id = q)) as [<- | Hne].
  - rewrite GetBest_SetBest. unfold GetBest in H. unfold best_of.
    destruct (Results s !! id) as [old |]; [| simpl in H; unfold OneStar in H; lia].
    case_match eqn:E; [| exact H]. simpl.
    apply orb_true_iff in E. rewrite andb_true_iff in E.
    rewrite Z.gtb_ltb, Z.ltb_lt, Z.eqb_eq in E. simpl in E. lia.
  - unfold GetBest in *. by rewrite SetBest_other.
Qed.

Lemma all_have_one_star_SetBest (s : Store) id stars ks ps :
  all_have_one_star s ps = true ->
  all_have_one_star (SetBest s id stars ks) ps = true.
Proof.
  rewrite !all_have_one_star_spec. intros H p Hin.
  apply SetBest_keeps_one_star. auto.
Qed.

(** Recording a result never locks a level that was unlocked. *)
Theorem SetBest_never_locks (s : Store) (id : string) (stars : StarRating)
    (ks level : Z) (allPuzzles : list Puzzle) :
  IsLevelUnlocked s level allPuzzles = true ->
  IsLevelUnlocked (SetBest s id stars ks) level allPuzzles = true.
Proof.
  unfold IsLevelUnlocked. repeat case_match; try done.
  apply all_have_one_star_SetBest.
Qed.

Lemma SetBest_never_locks_witness :
  IsLevelUnlocked
    (SetBest
       (mkStore ".vimgym" (<["hjkl-01" := mkResult TwoStar 5]> ∅))
       "hjkl-01" OneStar 3)
    2 [mkPuzzle "hjkl-01" 1 1 4; mkPuzzle "word-01" 1 2 5]
  = true.
Proof. apply SetBest_never_locks. reflexivity. Defined.

(** ** Finishing a puzzle *)

Lemma Score_at_least_one (keystrokes par : Z) :
  OneStar <= Score keystrokes par <= ThreeStar.
Proof.
  unfold Score, OneStar, TwoStar, ThreeStar. repeat case_match; lia.
Qed.

Lemma SetBest_pass_has_one_star (s : Store) id stars ks :
  OneStar <= stars ->
  OneStar <= Stars (GetBest (SetBest s id stars ks) id).
Proof.
  intros H. rewrite GetBest_SetBest. unfold best_of.
  destruct (Results s !! id) as [old |]; [| exact H].
  case_match eqn:E; [exact H |].
  apply orb_false_iff in E as [E _].
  rewrite Z.gtb_ltb, Z.ltb_ge in E. simpl in E. lia.
Qed.

(** When the buffer read back from the engine completes the goal during
    play, [syncCheckClear] marks the session cleared, shows between one and
    three stars, leaves the view (and its keystroke count) alone, and the
    store then holds at least one star for the puzzle, whatever it held
    before. *)
Theorem syncCheckClear_records_a_pass (x : Session) (c : Client) (text : string) :
  state x = statePlaying -> nvim (view x) = Some c ->
  Validate text (goalText x) = true ->
  state (syncCheckClear x (Some text)) = stateCleared /\
  stars (syncCheckClear x (Some text))
    = Score (keystrokes (view x)) (Par (puzzle x)) /\
  OneStar <= stars (syncCheckClear x (Some text)) <= ThreeStar /\
  view (syncCheckClear x (Some text)) = view x /\
  OneStar <= Stars (GetBest (progress (syncCheckClear x (Some text)))
                      (ID (puzzle x))).
Proof.
  intros Hs Hc Hv. unfold syncCheckClear. rewrite Hs, Hc, Hv. simpl.
  split; [done |]. split; [done |]. split; [apply Score_at_least_one |].
  split; [done |]. apply SetBest_pass_has_one_star, Score_at_least_one.
Qed.

Lemma syncCheckClear_records_a_pass_witness :
  OneStar <=
  Stars (GetBest
           (progress
              (syncCheckClear
                 (mkSession
                    (mkPuzzleView (Some (mkClient ["dd"])) 40 "NORMAL" EmptyString
                       false false false false EmptyString)
                    (mkPuzzle "line-01" 1 3 2) "done" statePlaying NoStar
                    (mkStore ".vimgym" ∅))
                 (Some (String.append "done" (String newline EmptyString)))))
           "line-01").
Proof.
  refine (proj2 (proj2 (proj2 (proj2
    (syncCheckClear_records_a_pass
       (mkSession
          (mkPuzzleView (Some (mkClient ["dd"])) 40 "NORMAL" EmptyString
             false false false false EmptyString)
          (mkPuzzle "line-01" 1 3 2) "done" statePlaying NoStar
          (mkStore ".vimgym" ∅))
       (mkClient ["dd"])
       (String.append "done" (String newline EmptyString)) _ _ _))))); reflexivity.
Defined.

(** [syncCheckClear] changes nothing once the puzzle is cleared, without a
    client, when the buffer cannot be read, or when the buffer does not
    complete the goal. *)
Theorem syncCheckClear_otherwise_unchanged (x : Session)
    (bufferText : option string) :
  state x = stateCleared \/ nvim (view x) = None \/ bufferText = None \/
  (exists text, bufferText = Some text /\ Validate text (goalText x) = false) ->
  syncCheckClear x bufferText = x.
Proof.
  unfold syncCheckClear.
  intros [-> | [-> | [-> | (text & -> & ->)]]]; repeat case_match; done.
Qed.

Lemma syncCheckClear_otherwise_unchanged_witness :
  syncCheckClear
    (mkSession
       (mkPuzzleView (Some (mkClient ["x"])) 1 "NORMAL" EmptyString
          false false false false EmptyString)
       (mkPuzzle "line-01" 1 3 2) "done" statePlaying NoStar
       (mkStore ".vimgym" ∅))
    (Some "don")
  = mkSession
       (mkPuzzleView (Some (mkClient ["x"])) 1 "NORMAL" EmptyString
          false false false false EmptyString)
       (mkPuzzle "line-01" 1 3 2) "done" statePlaying NoStar
       (mkStore ".vimgym" ∅).
Proof.
  apply syncCheckClear_otherwise_unchanged.
  right. right. right. exists "don". split; reflexivity.
Defined.

Lemma record_clears_keeps_one_star (s : Store) clears q :
  OneStar <= Stars (GetBest s q) ->
  OneStar <= Stars (GetBest (record_clears s clears) q).
Proof.
  unfold record_clears. revert s.
  induction clears as [|[p k] rest IH]; intros s H; [exact H |].
  simpl. apply IH. by apply SetBest_keeps_one_star.
Qed.

Lemma record_clears_cleared (s : Store) clears p k :
  In (p, k) clears ->
  OneStar <= Stars (GetBest (record_clears s clears) (ID p)).
Proof.
  unfold record_clears. revert s.
  induction clears as [|[p' k'] rest IH]; intros s; [by intros [] |].
  intros [[= -> ->] | Hin]; simpl.
  - apply (record_clears_keeps_one_star _ rest).
    apply SetBest_pass_has_one_star, Score_at_least_one.
  - by apply IH.
Qed.

(** Once every puzzle of a level has been cleared, in any order, any
    number of times and with any keystroke counts, the next level is
    unlocked, whatever the store held before. *)
Theorem clearing_a_level_unlocks_the_next (s : Store)
    (clears : list (Puzzle * Z)) (level : Z) (allPuzzles : list Puzzle) :
  GoInt.in_range level ->
  (forall p, In p allPuzzles -> Level p = level - 1 ->
     exists k, In (p, k) clears) ->
  IsLevelUnlocked (record_clears s clears) level allPuzzles = true.
Proof.
  intros Hr Hall. unfold IsLevelUnlocked.
  destruct (Z.leb_spec level 1) as [? | Hl]; [done |].
  assert (GoInt.sub level 1 = level - 1) as ->.
  { apply GoInt_wrap_small.
    unfold GoInt.in_range, GoInt.MinInt, GoInt.MaxInt in *. lia. }
  case_match; [done |].
  apply all_have_one_star_spec. intros p Hin.
  apply GetPuzzlesForLevel_In in Hin as [Hin Hlp].
  destruct (Hall p Hin Hlp) as [k Hk].
  by apply (record_clears_cleared s clears p k).
Qed.

Lemma clearing_a_level_unlocks_the_next_witness :
  IsLevelUnlocked
    (record_clears (mkStore ".vimgym" ∅)
       [(mkPuzzle "hjkl-02" 1 1 6, 30); (mkPuzzle "hjkl-01" 1 1 4, 4)])
    2 [mkPuzzle "hjkl-01" 1 1 4; mkPuzzle "hjkl-02" 1 1 6; mkPuzzle "word-01" 1 2 5]
  = true.
Proof.
  apply clearing_a_level_unlocks_the_next.
  - vm_compute. split; discriminate.
  - intros p [<- | [<- | [<- | []]]] Hl.
    + exists 4. simpl. auto.
    + exists 30. simpl. auto.
    + discriminate Hl.
Defined.

(** ** Listing tracks and levels *)

Lemma StronglySorted_le_NoDup_lt (l : list Z) :
  StronglySorted Z.le l -> NoDup l -> StronglySorted Z.lt l.
Proof.
  induction 1 as [|x l Hs IH Hall]; intros Hnd; constructor.
  - apply IH. by apply NoDup_cons in Hnd as [_ ?].
  - apply NoDup_cons in Hnd as [Hx _].
    rewrite Forall_forall in *. intros y Hy.
    specialize (Hall y Hy).
    assert (x <> y) by (intros ->; apply Hx; by apply list_elem_of_In).
    lia.
Qed.

(** Sorting the members of a set gives them once each, ascending. *)
Lemma sort_Ints_elements (X : gset Z) :
  StronglySorted Z.lt (sort_Ints (elements X)) /\
  forall z, In z (sort_Ints (elements X)) <-> z ∈ X.
Proof.
  unfold sort_Ints. split.
  - apply StronglySorted_le_NoDup_lt.
    + apply StronglySorted_merge_sort; [intros ???; lia |].
      intros x y. destruct (Z.le_gt_cases x y); [left | right]; lia.
    + rewrite merge_sort_Permutation. apply NoDup_elements.
  - intros z. rewrite <- list_elem_of_In, merge_sort_Permutation.
    apply elem_of_elements.
Qed.

Lemma seen_tracks_spec (puzzles : list Puzzle) (seen : gset Z) (t : Z) :
  t ∈ fold_left (fun (seen : gset Z) p => {[Track p]} ∪ seen) puzzles seen <->
  t ∈ seen \/ exists p, In p puzzles /\ Track p = t.
Proof.
  revert seen. induction puzzles as [|q rest IH]; intros seen; simpl.
  - split; [auto | by intros [? | (? & [] & _)]].
  - rewrite IH, elem_of_union, elem_of_singleton. split.
    + intros [[-> | ?] | (p & ? & ?)]; eauto.
    + intros [? | (p & [<- | ?] & <-)]; eauto.
Qed.

Lemma seen_levels_spec (puzzles : list Puzzle) (track : Z) (seen : gset Z) (l : Z) :
  l ∈ fold_left
        (fun (seen : gset Z) p =>
           if Track p =? track then {[Level p]} ∪ seen else seen)
        puzzles seen <->
  l ∈ seen \/ exists p, In p puzzles /\ Track p = track /\ Level p = l.
Proof.
  revert seen. induction puzzles as [|q rest IH]; intros seen; simpl.
  - split; [auto | by intros [? | (? & [] & _)]].
  - rewrite IH. destruct (Z.eqb_spec (Track q) track) as [E | E].
    + rewrite elem_of_union, elem_of_singleton. split.
      * intros [[-> | ?] | (p & ? & ? & ?)]; eauto 7.
      * intros [? | (p & [<- | ?] & ? & <-)]; eauto 7.
    + split.
      * intros [? | (p & ? & ? & ?)]; eauto 7.
      * intros [? | (p & [<- | ?] & ? & ?)]; [auto | done | eauto 7].
Qed.

(** [GetTracks] lists every track number that some puzzle carries, and
    only those, each once, in ascending order. *)
Theorem GetTracks_sorted_and_complete (puzzles : list Puzzle) :
  StronglySorted Z.lt (GetTracks puzzles) /\
  forall t, In t (GetTracks puzzles) <-> exists p, In p puzzles /\ Track p = t.
Proof.
  unfold GetTracks.
  destruct (sort_Ints_elements
              (fold_left (fun (seen : gset Z) p => {[Track p]} ∪ seen) puzzles ∅))
    as [Hs Hm].
  split; [exact Hs |]. intros t. rewrite Hm, seen_tracks_spec.
  split; [intros [H | H]; [by apply not_elem_of_empty in H | exact H] | auto].
Qed.

Lemma GetLevelsForTrack_In (puzzles : list Puzzle) (track l : Z) :
  In l (GetLevelsForTrack puzzles track) <->
  exists p, In p puzzles /\ Track p = track /\ Level p = l.
Proof.
  unfold GetLevelsForTrack.
  match goal with |- context [elements ?X] =>
    destruct (sort_Ints_elements X) as [_ Hm]
  end.
  rewrite Hm, seen_levels_spec.
  split; [intros [H | H]; [by apply not_elem_of_empty in H | exact H] | auto].
Qed.

(** [GetLevelsForTrack] lists the level numbers of the puzzles of the
    track, and only those, each once, in ascending order. *)
Theorem GetLevelsForTrack_sorted_and_complete (puzzles : list Puzzle) (track : Z) :
  StronglySorted Z.lt (GetLevelsForTrack puzzles track) /\
  forall l, In l (GetLevelsForTrack puzzles track) <->
            exists p, In p puzzles /\ Track p = track /\ Level p = l.
Proof.
  split; [| apply GetLevelsForTrack_In].
  unfold GetLevelsForTrack. apply sort_Ints_elements.
Qed.

Lemma GroupByLevel_fold (puzzles : list Puzzle) (m : gmap Z (list Puzzle)) (l : Z) :
  (forall k, m !! k <> Some []) ->
  default []
    (fold_left (fun m p => <[Level p := default [] (m !! Level p) ++ [p]]> m)
       puzzles m !! l)
  = default [] (m !! l) ++ GetPuzzlesForLevel puzzles l /\
  (forall k,
     fold_left (fun m p => <[Level p := default [] (m !! Level p) ++ [p]]> m)
       puzzles m !! k <> Some []).
Proof.
  revert m. induction puzzles as [|q rest IH]; intros m Hm; simpl.
  - split; [by rewrite app_nil_r | exact Hm].
  - destruct (IH (<[Level q := default [] (m !! Level q) ++ [q]]> m)) as [H1 H2].
    { intros k. destruct (decide (Level q = k)) as [<- | Hne].
      - rewrite lookup_insert_eq. intros [= H]. by destruct (default [] _).
      - rewrite lookup_insert_ne by done. apply Hm. }
    split; [| exact H2]. rewrite H1.
    destruct (Z.eqb_spec (Level q) l) as [<- | Hne].
    + rewrite lookup_insert_eq. simpl. by rewrite <- app_assoc.
    + by rewrite lookup_insert_ne.
Qed.

(** [GroupByLevel] holds under each level exactly the puzzles
    [GetPuzzlesForLevel] returns for it, in the same order, and has an
    entry exactly for the levels that have a puzzle. *)
Theorem GroupByLevel_lookup (puzzles : list Puzzle) (level : Z) :
  default [] (GroupByLevel puzzles !! level) = GetPuzzlesForLevel puzzles level /\
  (is_Some (GroupByLevel puzzles !! level) <->
   exists p, In p puzzles /\ Level p = level).
Proof.
  unfold GroupByLevel.
  destruct (GroupByLevel_fold puzzles ∅ level) as [H1 H2];
    [intros k; by rewrite lookup_empty |].
  rewrite lookup_empty in H1. simpl in H1. split; [exact H1 |].
  split.
  - intros [ps Hps]. rewrite Hps in H1. simpl in H1.
    destruct ps as [|p ps']; [by destruct (H2 level) |].
    exists p. apply GetPuzzlesForLevel_In. rewrite <- H1. by left.
  - intros (p & Hin & Hl).
    assert (In p (GetPuzzlesForLevel puzzles level)) as Hp
      by (apply GetPuzzlesForLevel_In; auto).
    rewrite <- H1 in Hp.
    destruct (fold_left _ puzzles ∅ !! level); [eauto | by destruct Hp].
Qed.

Lemma max_level_stars_spec (s : Store) (levels : list Z) (all : list Puzzle)
    (m : StarRating) :
  m <= max_level_stars s levels all m /\
  (forall l, In l levels -> GetLevelStars s l all <= max_level_stars s levels all m) /\
  (max_level_stars s levels all m = m \/
   exists l, In l levels /\ max_level_stars s levels all m = GetLevelStars s l all).
Proof.
  revert m. induction levels as [|l0 rest IH]; intros m; simpl.
  - split; [lia |]. split; [by intros l [] | by left].
  - rewrite Z.gtb_ltb.
    destruct (Z.ltb_spec m (GetLevelStars s l0 all)) as [Hlt | Hge].
    + destruct (IH (GetLevelStars s l0 all)) as (H1 & H2 & H3).
      split; [lia |]. split.
      * intros l [<- | Hin]; [exact H1 | by apply H2].
      * right. destruct H3 as [-> | (l & Hin & Hl)]; [exists l0 | exists l]; auto.
    + destruct (IH m) as (H1 & H2 & H3).
      split; [exact H1 |]. split.
      * intros l [<- | Hin]; [lia | by apply H2].
      * destruct H3 as [H3 | (l & Hin & Hl)]; [by left |].
        right. exists l. auto.
Qed.

(** [GetTrackStars] is never below [NoStar], is at least the stars of
    every level that has a puzzle of the track, and is [NoStar] or the stars
    of one such level. *)
Theorem GetTrackStars_is_the_maximum (s : Store) (track : Z)
    (allPuzzles : list Puzzle) :
  NoStar <= GetTrackStars s track allPuzzles /\
  (forall p, In p allPuzzles -> Track p = track ->
     GetLevelStars s (Level p) allPuzzles <= GetTrackStars s track allPuzzles) /\
  (GetTrackStars s track allPuzzles = NoStar \/
   exists p, In p allPuzzles /\ Track p = track /\
     GetTrackStars s track allPuzzles = GetLevelStars s (Level p) allPuzzles).
Proof.
  pose proof (GetLevelsForTrack_In allPuzzles track) as Hm.
  unfold GetTrackStars.
  destruct (max_level_stars_spec s (GetLevelsForTrack allPuzzles track)
              allPuzzles NoStar) as (H1 & H2 & H3).
  destruct (GetLevelsForTrack allPuzzles track) as [|l0 rest] eqn:E.
  - simpl. split; [done |]. split; [| by left].
    intros p Hin Ht. destruct (proj2 (Hm (Level p))); eauto.
  - change ((length (l0 :: rest) =? 0)%nat) with false. cbv iota.
    split; [exact H1 |]. split.
    + intros p Hin Ht. apply H2, Hm. eauto.
    + destruct H3 as [H3 | (l & Hin & Hl)]; [by left |].
      right. apply Hm in Hin as (p & ? & ? & <-). eauto.
Qed.

(** ** Windows over lines *)

(** Removes the wrap-around of an [int] operation whose result is in range. *)
Ltac unwrap :=
  unfold GoInt.add, GoInt.sub, GoInt.quot;
  repeat
    (rewrite GoInt_wrap_small
       by (unfold GoInt.in_range, GoInt.MinInt, GoInt.MaxInt in *; lia)).

Lemma half_bounds (h : Z) : 0 < h -> 0 <= Z.quot h 2 < h.
Proof.
  intros H. rewrite Z.quot_div_nonneg by lia. split.
  - apply Z.div_pos; lia.
  - apply Z.div_lt; lia.
Qed.

(** Between the two early exits the window starts [height/2] rows above
    the cursor row, pushed back into [0, total - height]. *)
Lemma windowRange_closed_form (total cursor height : Z) :
  0 <= total <= 4611686018427387904 ->
  GoInt.in_range cursor -> GoInt.in_range height ->
  0 < height -> height < total ->
  windowRange total cursor height =
    (Z.min (total - height) (Z.max 0 (clamp_row total cursor - Z.quot height 2)),
     Z.min (total - height) (Z.max 0 (clamp_row total cursor - Z.quot height 2))
       + height).
Proof.
  intros Ht Hc Hh Hh0 Hth. unfold windowRange, clamp_row.
  destruct (Z.leb_spec height 0) as [? | _]; [lia |].
  destruct (Z.leb_spec total height) as [? | _]; [lia |]. cbn [orb].
  pose proof (half_bounds height Hh0) as Hq.
  set (q := Z.quot height 2) in *.
  set (c1 := if cursor <? 0 then 0 else cursor).
  assert (0 <= c1 /\ c1 = Z.max 0 cursor /\ GoInt.in_range c1) as (Hc1 & Ec1 & Rc1).
  { unfold c1. unfold GoInt.in_range, GoInt.MinInt, GoInt.MaxInt in *.
    destruct (Z.ltb_spec cursor 0); lia. }
  assert (GoInt.sub total 1 = total - 1) as E1 by (unwrap; lia).
  rewrite E1.
  set (c2 := if c1 >=? total then total - 1 else c1).
  assert (c2 = Z.max 0 (Z.min cursor (total - 1)) /\ 0 <= c2 < total) as [Ec2 Hc2].
  { unfold c2. rewrite Z.geb_leb. destruct (Z.leb_spec total c1); lia. }
  assert (GoInt.quot height 2 = q) as Eq.
  { unfold GoInt.quot. fold q. apply GoInt_wrap_small.
    unfold GoInt.in_range, GoInt.MinInt, GoInt.MaxInt in *. lia. }
  rewrite Eq.
  assert (GoInt.sub c2 q = c2 - q) as E2.
  { unfold GoInt.sub. apply GoInt_wrap_small.
    unfold GoInt.in_range, GoInt.MinInt, GoInt.MaxInt in *. lia. }
  rewrite E2.
  set (s1 := if c2 - q <? 0 then 0 else c2 - q).
  assert (s1 = Z.max 0 (c2 - q)) as Es1
    by (unfold s1; destruct (Z.ltb_spec (c2 - q) 0); lia).
  assert (GoInt.add s1 height = s1 + height) as E3.
  { unfold GoInt.add. apply GoInt_wrap_small.
    unfold GoInt.in_range, GoInt.MinInt, GoInt.MaxInt in *. lia. }
  rewrite E3.
  assert (GoInt.sub total height = total - height) as E4.
  { unfold GoInt.sub. apply GoInt_wrap_small.
    unfold GoInt.in_range, GoInt.MinInt, GoInt.MaxInt in *. lia. }
  rewrite E4, Z.gtb_ltb. rewrite <- Ec2.
  destruct (Z.ltb_spec total (s1 + height)) as [Hover | Hfit].
  - assert (GoInt.add (total - height) height = total) as ->.
    { unfold GoInt.add. rewrite GoInt_wrap_small; [lia |].
      unfold GoInt.in_range, GoInt.MinInt, GoInt.MaxInt in *. lia. }
    f_equal; lia.
  - rewrite E3. f_equal; lia.
Qed.

(** For a slice of at most 2^62 rows, [windowRange] returns a range inside
    [0, total] that holds all rows when [height <= 0] and [min(total,
    height)] rows otherwise, and that contains the cursor row once that is
    brought into [0, total). *)
Theorem windowRange_in_bounds (total cursor height : Z) :
  0 <= total <= 4611686018427387904 ->
  GoInt.in_range cursor -> GoInt.in_range height ->
  0 <= (windowRange total cursor height).1
    <= (windowRange total cursor height).2 /\
  (windowRange total cursor height).2 <= total /\
  (windowRange total cursor height).2 - (windowRange total cursor height).1
    = (if height <=? 0 then total else Z.min total height) /\
  (0 < total ->
   (windowRange total cursor height).1 <= clamp_row total cursor
     < (windowRange total cursor height).2).
Proof.
  intros Ht Hc Hh.
  destruct (Z.leb_spec height 0) as [Hh0 | Hh0].
  { unfold windowRange, clamp_row.
    assert ((height <=? 0) = true) as -> by (apply Z.leb_le; lia).
    simpl. lia. }
  destruct (Z.leb_spec total height) as [Hth | Hth].
  { unfold windowRange, clamp_row.
    assert ((total <=? height) = true) as -> by (apply Z.leb_le; lia).
    rewrite orb_true_r. simpl. lia. }
  rewrite (windowRange_closed_form total cursor height) by done.
  pose proof (half_bounds height Hh0) as Hq. cbn [fst snd].
  unfold clamp_row in *. lia.
Qed.

Lemma windowRange_in_bounds_witness :
  0 <= (windowRange 10 9 4).1 <= (windowRange 10 9 4).2 /\
  (windowRange 10 9 4).2 <= 10 /\
  (windowRange 10 9 4).2 - (windowRange 10 9 4).1 = 4 /\
  (0 < 10 -> (windowRange 10 9 4).1 <= 9 < (windowRange 10 9 4).2).
Proof.
  apply (windowRange_in_bounds 10 9 4).
  - lia.
  - vm_compute. split; discriminate.
  - vm_compute. split; discriminate.
Defined.

Lemma len_take_drop {A} (l : list A) (lo hi : Z) :
  0 <= lo <= hi -> hi <= len l ->
  len (take (Z.to_nat (hi - lo)) (drop (Z.to_nat lo) l)) = hi - lo.
Proof.
  unfold len. intros H1 H2. rewrite length_take, length_drop. lia.
Qed.

(** [windowLines] cuts the lines that [windowRange] selects. *)
Lemma windowLines_as_slice (lines : list string) (cursor height : Z) :
  windowLines lines cursor height =
    slice lines (windowRange (len lines) cursor height).1
                (windowRange (len lines) cursor height).2.
Proof.
  unfold windowLines, windowRange.
  destruct ((height <=? 0) || (len lines <=? height)); [| reflexivity].
  unfold slice. cbn [fst snd]. rewrite Z.leb_refl.
  assert ((0 <=? len lines) = true) as -> by (apply Z.leb_le; unfold len; lia).
  cbn [andb]. rewrite drop_0, Z.sub_0_r. unfold len. rewrite Nat2Z.id.
  by rewrite firstn_all, Z.leb_refl.
Qed.

(** [windowLines] cuts exactly the range that [windowRange] computes for
    the same arguments. For at most 2^62 lines it does not panic: it
    returns a contiguous run of the lines, all of them when [height <= 0]
    and [min(len, height)] otherwise, and the run contains the cursor row
    once that is brought into range. *)
Theorem windowLines_in_bounds (lines : list string) (cursor height : Z) :
  len lines <= 4611686018427387904 ->
  GoInt.in_range cursor -> GoInt.in_range height ->
  windowLines lines cursor height =
    slice lines (windowRange (len lines) cursor height).1
                (windowRange (len lines) cursor height).2 /\
  exists start w,
    windowLines lines cursor height = Some w /\
    0 <= start /\
    w = take (Z.to_nat (len w)) (drop (Z.to_nat start) lines) /\
    len w = (if height <=? 0 then len lines else Z.min (len lines) height) /\
    (0 < len lines ->
     start <= clamp_row (len lines) cursor < start + len w).
Proof.
  intros Hl Hc Hh. split; [apply windowLines_as_slice |].
  assert (0 <= len lines) as H0 by (unfold len; lia).
  assert (exists lo hi,
            windowRange (len lines) cursor height = (lo, hi) /\
            0 <= lo <= hi /\ hi <= len lines /\
            hi - lo = (if height <=? 0 then len lines
                       else Z.min (len lines) height) /\
            (0 < len lines -> lo <= clamp_row (len lines) cursor < hi))
    as (lo & hi & Ewr & H1 & H2 & H3 & H4).
  { destruct (Z.leb_spec height 0) as [Hh0 | Hh0].
    { exists 0, (len lines). unfold windowRange, clamp_row.
      assert ((height <=? 0) = true) as -> by (apply Z.leb_le; lia).
      simpl. repeat split; lia. }
    destruct (Z.leb_spec (len lines) height) as [Hth | Hth].
    { exists 0, (len lines). unfold windowRange, clamp_row.
      assert ((len lines <=? height) = true) as -> by (apply Z.leb_le; lia).
      rewrite orb_true_r. repeat split; lia. }
    eexists _, _. split; [by apply windowRange_closed_form |].
    pose proof (half_bounds height Hh0) as Hq.
    unfold clamp_row in *. repeat split; lia. }
  rewrite windowLines_as_slice, Ewr. cbn [fst snd].
  exists lo, (take (Z.to_nat (hi - lo)) (drop (Z.to_nat lo) lines)).
  assert (len (take (Z.to_nat (hi - lo)) (drop (Z.to_nat lo) lines)) = hi - lo)
    as Elen by (apply len_take_drop; lia).
  split.
  { unfold slice.
    assert ((0 <=? lo) = true) as -> by (apply Z.leb_le; lia).
    assert ((lo <=? hi) = true) as -> by (apply Z.leb_le; lia).
    assert ((hi <=? len lines) = true) as -> by (apply Z.leb_le; lia).
    reflexivity. }
  split; [lia |]. split; [by rewrite Elen |].
  rewrite Elen. split; [exact H3 |].
  intros Hpos. specialize (H4 Hpos). lia.
Qed.

Lemma windowLines_in_bounds_witness :
  exists start w,
    windowLines ["a"; "b"; "c"; "d"; "e"] 4 2 = Some w /\
    0 <= start /\
    w = take (Z.to_nat (len w)) (drop (Z.to_nat start) ["a"; "b"; "c"; "d"; "e"]) /\
    len w = 2 /\
    (0 < 5 -> start <= 4 < start + len w).
Proof.
  apply (windowLines_in_bounds ["a"; "b"; "c"; "d"; "e"] 4 2).
  - vm_compute. discriminate.
  - vm_compute. split; discriminate.
  - vm_compute. split; discriminate.
Defined.

(** ** The focus row of the goal, and counting lines *)

Lemma goalFocusRow_loop_spec (before after : list string) (i fuel : nat) :
  len after <= GoInt.MaxInt ->
  (length after <= i + fuel)%nat ->
  (forall j, (j < i)%nat -> nth j before EmptyString = nth j after EmptyString) ->
  0 <= goalFocusRow_loop before after i fuel /\
  (after = [] -> goalFocusRow_loop before after i fuel = 0) /\
  (after <> [] -> goalFocusRow_loop before after i fuel < len after) /\
  (forall j, Z.of_nat j < goalFocusRow_loop before after i fuel ->
     nth j before EmptyString = nth j after EmptyString) /\
  (goalFocusRow_loop before after i fuel + 1 < len after ->
   nth (Z.to_nat (goalFocusRow_loop before after i fuel)) before EmptyString
   <> nth (Z.to_nat (goalFocusRow_loop before after i fuel)) after EmptyString).
Proof.
  intros Hmax. unfold len in *.
  assert (after <> [] ->
          GoInt.sub (Z.of_nat (length after)) 1 = Z.of_nat (length after) - 1)
    as Hsub.
  { intros Hne. unfold GoInt.sub. apply GoInt_wrap_small.
    unfold GoInt.in_range, GoInt.MinInt, GoInt.MaxInt in *. lia. }
  assert (after <> [] -> (Z.of_nat (length after) =? 0) = false) as Hnz.
  { intros Hne. apply Z.eqb_neq. destruct after; [done | simpl length; lia]. }
  assert (after <> [] -> 0 < Z.of_nat (length after)) as Hpos.
  { intros Hne. destruct after; [done | simpl length; lia]. }
  revert i. induction fuel as [|fuel IH]; intros i Hfuel Hpre; simpl;
    unfold len.
  - destruct (decide (after = [])) as [-> | Hne].
    + simpl. split; [lia |]. split; [done |]. split; [done |].
      split; [intros j Hj; lia | intros; simpl in *; lia].
    + rewrite (Hnz Hne), (Hsub Hne). specialize (Hpos Hne).
      split; [lia |]. split; [done |]. split; [lia |].
      split; [intros j Hj; apply Hpre; lia | intros; lia].
  - destruct (String.eqb_spec (nth i before EmptyString) (nth i after EmptyString))
      as [Heq | Hneq]; simpl negb; cbv iota.
    + apply IH; [lia |]. intros j Hj.
      destruct (decide (j = i)) as [-> | ?]; [exact Heq | apply Hpre; lia].
    + destruct (decide (after = [])) as [-> | Hne].
      * simpl. split; [lia |]. split; [done |]. split; [done |].
        split; [intros j Hj; lia | intros; simpl in *; lia].
      * rewrite (Hnz Hne), Z.geb_leb. specialize (Hpos Hne).
        destruct (Z.leb_spec (Z.of_nat (length after)) (Z.of_nat i)) as [Hge | Hlt].
        -- rewrite (Hsub Hne).
           split; [lia |]. split; [done |]. split; [lia |].
           split; [intros j Hj; apply Hpre; lia | intros; lia].
        -- split; [lia |]. split; [done |]. split; [lia |].
           split; [intros j Hj; apply Hpre; lia |].
           intros _. by rewrite Nat2Z.id.
Qed.

(** For a goal of at most [MaxInt] lines, [goalFocusRow] is a valid row of
    the goal (row 0 for an empty goal). Every row above it is the same
    before and after, and unless it is the goal's last row it is a row
    where the two texts differ. *)
Theorem goalFocusRow_is_first_difference (before after : list string) :
  len after <= GoInt.MaxInt ->
  0 <= goalFocusRow before after /\
  (after = [] -> goalFocusRow before after = 0) /\
  (after <> [] -> goalFocusRow before after < len after) /\
  (forall j, Z.of_nat j < goalFocusRow before after ->
     nth j before EmptyString = nth j after EmptyString) /\
  (goalFocusRow before after + 1 < len after ->
   nth (Z.to_nat (goalFocusRow before after)) before EmptyString
   <> nth (Z.to_nat (goalFocusRow before after)) after EmptyString).
Proof.
  intros Hmax. unfold goalFocusRow, go_max. rewrite Z.gtb_ltb.
  set (m := if len after <? len before then len before else len after).
  assert (len before <= m /\ len after <= m /\ 0 <= m) as (Hb & Ha & Hm0).
  { unfold m, len. destruct (Z.ltb_spec (Z.of_nat (length after))
                               (Z.of_nat (length before))); lia. }
  destruct (Z.eqb_spec m 0) as [E0 | Hne].
  - assert (after = []) as -> by (destruct after; [done | unfold len in *; simpl in *; lia]).
    assert (before = []) as -> by (destruct before; [done | unfold len in *; simpl in *; lia]).
    unfold len. simpl. repeat split; try done; lia.
  - apply goalFocusRow_loop_spec; [done | unfold len in *; lia | intros j Hj; lia].
Qed.

Lemma goalFocusRow_is_first_difference_witness :
  goalFocusRow ["let a = 1"; "let b = 2"; "let c = 3"]
               ["let a = 1"; "let b = 5"; "let c = 3"] < 3 /\
  goalFocusRow ["let a = 1"; "let b = 2"; "let c = 3"]
               ["let a = 1"; "let b = 5"; "let c = 3"] = 1.
Proof.
  destruct (goalFocusRow_is_first_difference
              ["let a = 1"; "let b = 2"; "let c = 3"]
              ["let a = 1"; "let b = 5"; "let c = 3"])
    as (_ & _ & H & _); [vm_compute; discriminate |].
  split; [by apply H | reflexivity].
Defined.

Lemma Split_newline_nonempty (s : string) : Split_newline s <> [].
Proof.
  induction s as [|c r IH]; simpl; [done |].
  destruct (Ascii.eqb c newline); [done |].
  by destruct (Split_newline r).
Qed.

Lemma Count_newline_Split (s : string) :
  Count_newline s + 1 = len (Split_newline s) /\
  0 <= Count_newline s <= Z.of_nat (String.length s).
Proof.
  unfold len. induction s as [|c r [IH1 IH2]]; simpl; [lia |].
  destruct (Ascii.eqb c newline); simpl.
  - lia.
  - pose proof (Split_newline_nonempty r).
    destruct (Split_newline r); [done | simpl in *; lia].
Qed.

(** For a text shorter than [MaxInt] bytes, [countLines] is the number of
    pieces [strings.Split(text, "\n")] cuts it into, which is at least 1:
    the goal box is sized for the lines that are rendered into it. *)
Theorem countLines_is_Split_length (text : string) :
  Z.of_nat (String.length text) < GoInt.MaxInt ->
  countLines text = len (Split_newline text) /\ 1 <= countLines text.
Proof.
  intros Hlen. destruct (Count_newline_Split text) as [H1 H2].
  unfold countLines.
  destruct (String.eqb_spec text EmptyString) as [-> | _]; [by split |].
  assert (GoInt.add (Count_newline text) 1 = Count_newline text + 1) as ->.
  { unfold GoInt.add. apply GoInt_wrap_small.
    unfold GoInt.in_range, GoInt.MinInt, GoInt.MaxInt in *. lia. }
  lia.
Qed.

Lemma countLines_is_Split_length_witness :
  countLines (String "a" (String newline (String newline (String "b" EmptyString))))
  = len (Split_newline
           (String "a" (String newline (String newline (String "b" EmptyString))))) /\
  1 <= countLines
         (String "a" (String newline (String newline (String "b" EmptyString)))).
Proof.
  apply countLines_is_Split_length. vm_compute. reflexivity.
Defined.

(** ** Moving to the next puzzle *)

(** When [nextPuzzleInLevel] finds a puzzle, it is the one right after the
    first puzzle carrying the current ID, and it has the current track and
    level. When it finds none it returns the zero puzzle; that is so in
    particular when no puzzle carries the current ID. *)
Theorem nextPuzzleInLevel_is_the_successor (all : list Puzzle)
    (current p : Puzzle) :
  (nextPuzzleInLevel all current = (p, true) ->
   Track p = Track current /\ Level p = Level current /\
   exists pre q post,
     all = pre ++ q :: p :: post /\ ID q = ID current /\
     forall x, In x pre -> ID x <> ID current) /\
  (nextPuzzleInLevel all current = (p, false) ->
   p = mkPuzzle EmptyString 0 0 0) /\
  ((forall x, In x all -> ID x <> ID current) ->
   nextPuzzleInLevel all current = (mkPuzzle EmptyString 0 0 0, false)).
Proof.
  induction all as [|a rest (IH1 & IH2 & IH3)]; simpl.
  - repeat split; try done. by intros [= <-].
  - destruct (String.eqb_spec (ID a) (ID current)) as [Ea | Ea].
    + split; [| split].
      * destruct rest as [|q rest']; [done |].
        destruct (Z.eqb_spec (Track q) (Track current)) as [Et | Et];
          destruct (Z.eqb_spec (Level q) (Level current)) as [El | El];
          simpl; try done.
        intros [= <-]. split; [done |]. split; [done |].
        exists [], a, rest'. repeat split; try done.
      * destruct rest as [|q rest']; [by intros [= <-] |].
        case_match; [by intros [= <-] | done].
      * intros H. destruct (H a (or_introl eq_refl) Ea).
    + split; [| split].
      * intros H. destruct (IH1 H) as (Ht & Hl & pre & q & post & -> & Hq & Hpre).
        split; [done |]. split; [done |].
        exists (a :: pre), q, post. repeat split; try done.
        intros x [<- | Hx]; auto.
      * exact IH2.
      * intros H. apply IH3. intros x Hx. apply H. by right.
Qed.

Lemma nextPuzzleInLevel_is_the_successor_witness :
  Track (mkPuzzle "hjkl-02" 1 1 6) = 1 /\ Level (mkPuzzle "hjkl-02" 1 1 6) = 1.
Proof.
  destruct (nextPuzzleInLevel_is_the_successor
              [mkPuzzle "hjkl-01" 1 1 4; mkPuzzle "hjkl-02" 1 1 6;
               mkPuzzle "word-01" 1 2 5]
              (mkPuzzle "hjkl-01" 1 1 4) (mkPuzzle "hjkl-02" 1 1 6))
    as [H _].
  destruct (H eq_refl) as (Ht & Hl & _). split; [exact Ht | exact Hl].
Defined.

(** ** Key translation *)

Lemma ReplaceAll_lt_not_Esc (runes : string) : ReplaceAll_lt runes <> "<Esc>".
Proof.
  destruct runes as [|c r]; simpl; [done |].
  destruct (Ascii.eqb_spec c "<"%char) as [-> | Hc].
  - rewrite append_cons. intros [=].
  - intros H. inversion H. congruence.
Qed.

(** [translateKey] yields ["<Esc>"] for the escape key and for no other
    key event: typed or pasted runes have their ["<"] escaped to ["<LT>"],
    and a control chord starts with ["<C-"]. *)
Theorem translateKey_Esc_only_for_escape (msg : KeyMsg) :
  translateKey msg = "<Esc>" <-> KeyMsg_Type msg = KeyEsc.
Proof.
  unfold translateKey. split.
  - destruct (KeyMsg_Type msg) eqn:Et; try done.
    + intros H. by apply ReplaceAll_lt_not_Esc in H.
    + case_match; [| done].
      rewrite append_cons. intros [=].
  - by intros ->.
Qed.

Lemma skip_digits_decomp (keys : string) :
  exists ds, all_digits ds = true /\ keys = ds +:+ skip_digits keys.
Proof.
  induction keys as [|c r (ds & Hd & Hr)]; simpl.
  - exists EmptyString. by split.
  - destruct (is_digit_byte c) eqn:Ec.
    + exists (String c ds). simpl. rewrite Ec, Hd. split; [done |].
      rewrite append_cons. by rewrite <- Hr.
    + exists EmptyString. by split.
Qed.

Lemma skip_digits_prefix (ds rest : string) (c : ascii) :
  all_digits ds = true -> is_digit_byte c = false ->
  skip_digits (ds +:+ String c rest) = String c rest.
Proof.
  intros Hd Hc. induction ds as [|d ds IH].
  - rewrite append_nil_l. simpl. by rewrite Hc.
  - simpl in Hd. apply andb_true_iff in Hd as [Hd1 Hd2].
    rewrite append_cons. simpl. rewrite Hd1. by apply IH.
Qed.

(** [entersInsertAfterChange] answers [true] exactly for the commands that
    are an optional count, the letter [c], and at least one more byte. *)
Theorem entersInsertAfterChange_iff (keys : string) :
  entersInsertAfterChange keys = true <->
  exists count rest,
    all_digits count = true /\ rest <> EmptyString /\
    keys = count +:+ String "c" rest.
Proof.
  unfold entersInsertAfterChange. split.
  - destruct (skip_digits_decomp keys) as (ds & Hd & Hk).
    destruct (skip_digits keys) as [|c r]; [done |].
    destruct (Ascii.eqb_spec c "c"%char) as [-> | ?]; [| done].
    destruct (String.eqb_spec r EmptyString) as [-> | Hr]; [done |].
    intros _. by exists ds, r.
  - intros (ds & rest & Hd & Hr & ->).
    rewrite skip_digits_prefix by done. simpl.
    by destruct (String.eqb_spec rest EmptyString).
Qed.

(** ** The sequencer, one key event at a time *)

(** What a dispatching branch returns: the view with a new mode and the
    command handed to the client, if there is one. *)
Lemma send_spec (w v' : PuzzleView) (k k' : string) (cmd : Cmd) :
  inputAndSync (applyImmediateMode w k) k' = (v', cmd) ->
  cmd = CmdSyncTick /\
  v' = mkPuzzleView
         (match nvim w with
          | Some c => Some (Client_Input c k')
          | None => None
          end)
         (keystrokes w) (mode (applyImmediateMode w k)) (pendingKeys w)
         (pendingOperator w) (pendingNeedsChar w) (pendingTextObject w)
         (pendingHasCount w) (pendingCount w).
Proof.
  rewrite applyImmediateMode_eq. unfold inputAndSync.
  destruct w as [[c |] ? ? ? ? ? ? ? ?]; simpl; intros H; inversion H; auto.
Qed.

(** What [handleOperatorPending] returns: either the buffered text and the
    key went to the client and everything pending is cleared, or the key
    was added to the buffered text and at most flags were raised. *)
Lemma handleOperatorPending_spec (v w : PuzzleView) (keys : string) (sent : bool) :
  handleOperatorPending v keys = Some (w, sent) ->
  (sent = true /\
   exists c, nvim v = Some c /\
     w = mkPuzzleView (Some (Client_Input c (pendingKeys v +:+ keys)))
           (keystrokes v) (mode v) EmptyString false false false false
           EmptyString) \/
  (sent = false /\
   exists pn pt ph,
     w = mkPuzzleView (nvim v) (keystrokes v) (mode v) (pendingKeys v +:+ keys)
           (pendingOperator v) pn pt ph (pendingCount v)).
Proof.
  unfold handleOperatorPending, dispatch_pending, nvim_Input.
  destruct v as [[c |] ks md pk po pn pt ph pc]; simpl;
    repeat case_match; simpl; intros Hret; inversion Hret; subst;
    try (left; split; [reflexivity |]; eexists; split; reflexivity);
    right; (split; [reflexivity |]); eexists _, _, _; reflexivity.
Qed.

(** With a client attached [handleOperatorPending] does not panic. *)
Lemma handleOperatorPending_attached (v : PuzzleView) (c : Client) (keys : string) :
  nvim v = Some c -> exists w sent, handleOperatorPending v keys = Some (w, sent).
Proof.
  intros Hc. unfold handleOperatorPending, dispatch_pending, nvim_Input.
  rewrite ?Hc. destruct v as [nv ks md pk po pn pt ph pc]. simpl in *. subst nv.
  repeat case_match; simpl; eauto.
Qed.

(** Every key event with a non-empty key string that [handleNvimInput]
    gets through is counted once, whether the key is buffered, completes a
    command or is forwarded as it is, and however long the command sent. *)
Theorem key_event_counts_once (v v' : PuzzleView) (keys : string) (cmd : Cmd) :
  keys <> EmptyString ->
  handleNvimInput v keys = Some (v', cmd) ->
  keystrokes v' = GoInt.add (keystrokes v) 1.
Proof.
  intros Hk. unfold handleNvimInput.
  destruct (String.eqb_spec keys EmptyString) as [? | _]; [done |].
  set (v1 := set_keystrokes v (GoInt.add (keystrokes v) 1)).
  assert (keystrokes v1 = GoInt.add (keystrokes v) 1) as <- by reflexivity.
  clearbody v1.
  destruct (negb (String.eqb (mode v1) "NORMAL")).
  { returned. match goal with H : inputAndSync _ _ = _ |- _ =>
      apply send_spec in H as [_ ->] end. reflexivity. }
  destruct (negb (String.eqb (pendingKeys v1) EmptyString)).
  - destruct (String.eqb keys "<Esc>").
    { returned. match goal with H : inputAndSync _ _ = _ |- _ =>
        apply send_spec in H as [_ ->] end. reflexivity. }
    destruct (pendingOperator v1).
    + destruct (handleOperatorPending v1 keys) as [[w sent] |] eqn:Eop;
        simpl; [| discriminate].
      apply handleOperatorPending_spec in Eop
        as [[-> (c & _ & ->)] | [-> (pn & pt & ph & ->)]]; returned;
        [rewrite applyImmediateMode_eq |]; reflexivity.
    + case_match; returned;
        match goal with H : inputAndSync _ _ = _ |- _ =>
          apply send_spec in H as [_ ->] end; reflexivity.
  - repeat case_match; returned;
      try match goal with H : inputAndSync _ _ = _ |- _ =>
        apply send_spec in H as [_ ->] end; reflexivity.
Qed.

Lemma key_event_counts_once_witness :
  keystrokes
    (mkPuzzleView (Some (mkClient ["10dw"])) 42 "NORMAL" EmptyString false false
       false false EmptyString)
  = GoInt.add 41 1.
Proof.
  apply (key_event_counts_once
           (mkPuzzleView (Some (mkClient [])) 41 "NORMAL" "10d" true false false
              false EmptyString) _ "w" CmdSyncTick).
  - discriminate.
  - reflexivity.
Defined.

(** The escape key, in any view with a client attached and in any mode,
    pending or not: the client receives one more command, ["<Esc>"] alone,
    the sync tick is returned, the mode estimate is ["NORMAL"], and no key
    text or count stays buffered. *)
Theorem escape_is_always_forwarded (v : PuzzleView) (c : Client) :
  nvim v = Some c ->
  exists v',
    handleNvimInput v "<Esc>" = Some (v', CmdSyncTick) /\
    nvim v' = Some (mkClient (inputs c ++ ["<Esc>"])) /\
    mode v' = "NORMAL" /\
    pendingKeys v' = EmptyString /\ pendingCount v' = EmptyString.
Proof.
  intros Hc. destruct v as [nv ks md pk po pn pt ph pc]. simpl in Hc. subst nv.
  unfold handleNvimInput. cbn [String.eqb Ascii.eqb Bool.eqb].
  cbn [mode pendingKeys pendingCount keystrokes set_keystrokes nvim
       pendingOperator pendingNeedsChar pendingTextObject pendingHasCount].
  rewrite !applyImmediateMode_Esc.
  destruct (String.eqb_spec md "NORMAL") as [-> | Hmd]; cbn [negb].
  - destruct (String.eqb_spec pk EmptyString) as [-> | Hpk]; cbn [negb].
    + destruct (String.eqb_spec pc EmptyString) as [-> | Hpc]; cbn [negb].
      * eexists. split; [reflexivity |]. repeat split.
      * eexists. split; [reflexivity |]. repeat split.
    + eexists. split; [reflexivity |]. repeat split.
  - eexists. split; [reflexivity |]. repeat split.
Qed.

Lemma escape_is_always_forwarded_witness :
  exists v',
    handleNvimInput
      (mkPuzzleView (Some (mkClient ["i"])) 1 "INSERT" EmptyString false false
         false false EmptyString) "<Esc>" = Some (v', CmdSyncTick) /\
    nvim v' = Some (mkClient ["i"; "<Esc>"]) /\
    mode v' = "NORMAL" /\
    pendingKeys v' = EmptyString /\ pendingCount v' = EmptyString.
Proof.
  apply (escape_is_always_forwarded
           (mkPuzzleView (Some (mkClient ["i"])) 1 "INSERT" EmptyString false false
              false false EmptyString) (mkClient ["i"])).
  reflexivity.
Defined.

Lemma applyImmediateMode_other_mode (w : PuzzleView) (keys : string) :
  mode w <> "NORMAL" ->
  mode (applyImmediateMode w keys)
    = (if String.eqb keys "<Esc>" then "NORMAL" else mode w).
Proof.
  intros Hm. unfold applyImmediateMode.
  destruct (String.eqb keys "<Esc>"); [reflexivity |].
  by destruct (String.eqb_spec (mode w) "NORMAL").
Qed.

(** Outside normal mode nothing is buffered: with a client attached, every
    key event with a non-empty key string is handed to the client as a
    command of its own, anything pending is cleared, and the mode estimate
    stays as it is unless the key is escape. *)
Theorem other_modes_forward_every_key (v : PuzzleView) (c : Client)
    (keys : string) :
  mode v <> "NORMAL" -> keys <> EmptyString -> nvim v = Some c ->
  exists v',
    handleNvimInput v keys = Some (v', CmdSyncTick) /\
    nvim v' = Some (mkClient (inputs c ++ [keys])) /\
    pending_cleared v' /\
    mode v' = (if String.eqb keys "<Esc>" then "NORMAL" else mode v).
Proof.
  intros Hm Hk Hc. unfold handleNvimInput.
  destruct (String.eqb_spec keys EmptyString) as [? | _]; [done |].
  set (v1 := set_keystrokes v (GoInt.add (keystrokes v) 1)).
  assert (mode v1 = mode v) as Hm1 by reflexivity.
  destruct (String.eqb_spec (mode v1) "NORMAL") as [? | _]; [congruence |].
  cbn [negb].
  destruct (inputAndSync (applyImmediateMode (clearPending v1) keys) keys)
    as [v' cmd] eqn:E.
  apply send_spec in E as [-> ->].
  eexists. split; [reflexivity |].
  rewrite applyImmediateMode_other_mode by (simpl; congruence).
  simpl. rewrite Hc. repeat split.
Qed.

Lemma other_modes_forward_every_key_witness :
  exists v',
    handleNvimInput
      (mkPuzzleView (Some (mkClient ["i"])) 1 "INSERT" EmptyString false false
         false false EmptyString) "d" = Some (v', CmdSyncTick) /\
    nvim v' = Some (mkClient ["i"; "d"]) /\
    pending_cleared v' /\
    mode v' = "INSERT".
Proof.
  apply (other_modes_forward_every_key
           (mkPuzzleView (Some (mkClient ["i"])) 1 "INSERT" EmptyString false false
              false false EmptyString) (mkClient ["i"]) "d");
    [discriminate | discriminate | reflexivity].
Defined.

Lemma pending_cleared_send (w v' : PuzzleView) (c : Client) (k k' : string)
    (cmd : Cmd) :
  nvim w = Some c -> pending_cleared w ->
  inputAndSync (applyImmediateMode w k) k' = (v', cmd) ->
  cmd = CmdSyncTick /\ nvim v' = Some (mkClient (inputs c ++ [k'])) /\
  pending_cleared v'.
Proof.
  intros Hc Hp E. apply send_spec in E as [-> ->]. rewrite Hc.
  split; [done |]. split; [done |]. exact Hp.
Qed.

(** In every view a session can reach, with a client attached, one key
    event never panics and hands the client at most one command: either
    nothing is sent and no sync is scheduled, or exactly one command is
    sent, the sync tick is returned, and nothing is left pending. *)
Theorem at_most_one_command_per_key (v : PuzzleView) (c : Client) (keys : string) :
  reachable v -> nvim v = Some c ->
  exists v' cmd,
    handleNvimInput v keys = Some (v', cmd) /\
    ((cmd = CmdNil /\ nvim v' = Some c) \/
     (cmd = CmdSyncTick /\ pending_cleared v' /\
      exists command, nvim v' = Some (mkClient (inputs c ++ [command])))).
Proof.
  intros Hreach Hc. pose proof (reachable_flags v Hreach) as Hf.
  unfold handleNvimInput.
  destruct (String.eqb_spec keys EmptyString) as [-> | Hk]; [by eauto 6 |].
  set (v1 := set_keystrokes v (GoInt.add (keystrokes v) 1)).
  assert (nvim v1 = Some c) as Hc1 by exact Hc.
  assert (flags_need_keys v1) as Hf1 by exact Hf.
  clearbody v1. clear Hreach Hf Hc v.
  assert (forall w k k',
            nvim w = Some c -> pending_cleared w ->
            exists v' cmd,
              Some (inputAndSync (applyImmediateMode w k) k') = Some (v', cmd) /\
              ((cmd = CmdNil /\ nvim v' = Some c) \/
               (cmd = CmdSyncTick /\ pending_cleared v' /\
                exists command,
                  nvim v' = Some (mkClient (inputs c ++ [command])))))
    as Hsend.
  { intros w k k' Hw Hp.
    destruct (inputAndSync (applyImmediateMode w k) k') as [v' cmd] eqn:E.
    destruct (pending_cleared_send w v' c k k' cmd Hw Hp E) as (-> & Hn & Hp').
    exists v', CmdSyncTick. split; [done |]. right. eauto. }
  assert (pending_cleared (clearPending v1)) as Hclear by (repeat split).
  destruct (negb (String.eqb (mode v1) "NORMAL")); [by apply Hsend |].
  destruct (String.eqb_spec (pendingKeys v1) EmptyString) as [Ep | Ep];
    cbn [negb].
  - (* no key text buffered, so no flag is set *)
    destruct (Hf1 Ep) as (Ho & Hn & Ht & Hh).
    assert (pending_cleared (set_pendingCount v1 EmptyString)) as Hcount
      by (repeat split; assumption).
    destruct (String.eqb_spec (pendingCount v1) EmptyString) as [Ec | Ec];
      cbn [negb].
    + assert (pending_cleared v1) as Hidle by (repeat split; assumption).
      repeat case_match; try (by apply Hsend); eauto 6.
    + repeat case_match; try (by apply Hsend); eauto 6.
  - destruct (String.eqb keys "<Esc>"); [by apply Hsend |].
    destruct (pendingOperator v1).
    + destruct (handleOperatorPending_attached v1 c keys Hc1) as (w & sent & Eop).
      rewrite Eop. simpl.
      apply handleOperatorPending_spec in Eop
        as [[-> (c' & Hc' & ->)] | [-> (pn & pt & ph & ->)]].
      * rewrite Hc1 in Hc'. injection Hc' as <-.
        eexists _, _. split; [reflexivity |]. right. split; [done |].
        rewrite applyImmediateMode_eq. split; [repeat split | eauto].
      * eexists _, _. split; [reflexivity |]. left. by split.
    + case_match; by apply Hsend.
Qed.

Lemma at_most_one_command_per_key_witness :
  exists v' cmd,
    handleNvimInput
      (mkPuzzleView (Some (mkClient [])) 1 "NORMAL" "d" true false false false
         EmptyString) "w" = Some (v', cmd) /\
    ((cmd = CmdNil /\ nvim v' = Some (mkClient [])) \/
     (cmd = CmdSyncTick /\ pending_cleared v' /\
      exists command, nvim v' = Some (mkClient ([] ++ [command])))).
Proof.
  apply (at_most_one_command_per_key
           (mkPuzzleView (Some (mkClient [])) 1 "NORMAL" "d" true false false false
              EmptyString) (mkClient []) "w").
  - apply (reach_key (NewPuzzleView (Some (mkClient []))) "d" _ CmdNil);
      [apply reach_new | reflexivity].
  - reflexivity.
Defined.

(** ** The sequencer over a run of key events *)

Lemma Client_eta (c : Client) : mkClient (inputs c ++ []) = c.
Proof. destruct c. simpl. by rewrite app_nil_r. Qed.

Lemma sequencer_inv_cleared (w : PuzzleView) :
  pending_cleared w -> sequencer_inv w /\ buffered w = EmptyString.
Proof.
  intros (Hk & Hc & Ho & Hn & Ht & Hh). unfold sequencer_inv, buffered.
  rewrite Hk, Hc. repeat split; auto.
Qed.

(** One key event other than escape, on a view the sequencer alone has
    worked on: at most one command goes out, and the commands sent followed
    by the text still buffered are the text buffered before followed by the
    key. *)
Lemma handleNvimInput_conserves (v : PuzzleView) (c : Client) (keys : string) :
  sequencer_inv v -> nvim v = Some c -> keys <> "<Esc>" ->
  exists v' cmd sent,
    handleNvimInput v keys = Some (v', cmd) /\
    sequencer_inv v' /\
    nvim v' = Some (mkClient (inputs c ++ sent)) /\
    (length sent <= 1)%nat /\
    concat_strings sent +:+ buffered v' = buffered v +:+ keys.
Proof.
  intros Hinv Hc Hesc. unfold handleNvimInput.
  destruct (String.eqb_spec keys EmptyString) as [-> | Hk].
  { exists v, CmdNil, []. split; [done |]. split; [done |].
    rewrite Client_eta. split; [done |]. split; [simpl; lia |].
    by rewrite append_empty_r. }
  set (v1 := set_keystrokes v (GoInt.add (keystrokes v) 1)).
  assert (nvim v1 = Some c) as Hc1 by exact Hc.
  assert (sequencer_inv v1) as (Hf1 & Hex1 & Hmode1) by exact Hinv.
  assert (buffered v = buffered v1) as -> by reflexivity.
  clearbody v1. clear Hinv Hc v.
  (* a dispatching branch *)
  assert (forall w k k',
            nvim w = Some c -> pending_cleared w ->
            k' = buffered v1 +:+ keys ->
            (k = "<Esc>" -> mode w = "NORMAL") ->
            exists v' cmd sent,
              Some (inputAndSync (applyImmediateMode w k) k') = Some (v', cmd) /\
              sequencer_inv v' /\
              nvim v' = Some (mkClient (inputs c ++ sent)) /\
              (length sent <= 1)%nat /\
              concat_strings sent +:+ buffered v' = buffered v1 +:+ keys)
    as Hsend.
  { intros w k k' Hw Hp -> _.
    destruct (inputAndSync (applyImmediateMode w k) (buffered v1 +:+ keys))
      as [v' cmd] eqn:E.
    destruct (pending_cleared_send w v' c k _ cmd Hw Hp E) as (-> & Hn & Hp').
    destruct (sequencer_inv_cleared v' Hp') as [Hi Hb].
    exists v', CmdSyncTick, [buffered v1 +:+ keys].
    split; [done |]. split; [done |]. split; [done |]. split; [simpl; lia |].
    rewrite Hb. simpl. by rewrite !append_empty_r. }
  (* a buffering branch *)
  assert (forall w,
            nvim w = Some c -> mode w = mode v1 ->
            pendingKeys w <> EmptyString \/
              (pendingKeys w = EmptyString /\ pendingOperator w = false /\
               pendingNeedsChar w = false /\ pendingTextObject w = false /\
               pendingHasCount w = false) ->
            pendingKeys w = EmptyString \/ pendingCount w = EmptyString ->
            mode v1 = "NORMAL" ->
            buffered w = buffered v1 +:+ keys ->
            exists v' cmd sent,
              Some (w, CmdNil) = Some (v', cmd) /\
              sequencer_inv v' /\
              nvim v' = Some (mkClient (inputs c ++ sent)) /\
              (length sent <= 1)%nat /\
              concat_strings sent +:+ buffered v' = buffered v1 +:+ keys)
    as Hbuf.
  { intros w Hw Hm Hfl Hex Hn Hb. exists w, CmdNil, [].
    split; [done |]. split.
    { split; [| split; [exact Hex |]].
      - intros E. destruct Hfl as [? | (_ & ? & ? & ? & ?)]; [done | auto].
      - intros Hne. destruct Hne. congruence. }
    rewrite Client_eta. split; [done |]. split; [simpl; lia |].
    by rewrite append_nil_l. }
  assert (pending_cleared (clearPending v1)) as Hclear by (repeat split).
  destruct (String.eqb_spec (mode v1) "NORMAL") as [Hn | Hn]; cbn [negb].
  2:{ apply Hsend; [done | done | | done].
      by rewrite (Hmode1 Hn), append_nil_l. }
  destruct (String.eqb_spec (pendingKeys v1) EmptyString) as [Ep | Ep];
    cbn [negb].
  - destruct (Hf1 Ep) as (Ho & Hnc & Ht & Hh).
    assert (buffered v1 = pendingCount v1) as Eb
      by (unfold buffered; by rewrite Ep, append_nil_l).
    assert (pending_cleared (set_pendingCount v1 EmptyString)) as Hcount
      by (repeat split; assumption).
    destruct (String.eqb_spec (pendingCount v1) EmptyString) as [Ec | Ec];
      cbn [negb].
    + assert (pending_cleared v1) as Hidle by (repeat split; assumption).
      rewrite Ec in Eb.
      repeat case_match;
        first
          [ apply Hsend; [done | done | by rewrite Eb, append_nil_l | done]
          | apply Hbuf;
            [ done | done
            | first [ left; exact Hk | right; repeat split; assumption ]
            | first [ by left | by right ]
            | done
            | unfold buffered; simpl; rewrite ?Ep, ?Ec, ?Eb;
              by rewrite ?append_nil_l, ?append_empty_r ] ].
    + destruct (String.eqb_spec keys "<Esc>") as [? | _]; [done |].
      repeat case_match;
        first
          [ apply Hsend; [done | done | by rewrite Eb | done]
          | apply Hbuf;
            [ done | done
            | first [ left; simpl; by apply append_nonempty
                    | right; repeat split; assumption ]
            | first [ by left | by right ]
            | done
            | unfold buffered; simpl; rewrite ?Ep, ?Eb;
              by rewrite ?append_nil_l, ?append_empty_r ] ].
  - assert (pendingCount v1 = EmptyString) as Ec by (by destruct Hex1).
    assert (buffered v1 = pendingKeys v1) as Eb
      by (unfold buffered; by rewrite Ec, append_empty_r).
    destruct (String.eqb_spec keys "<Esc>") as [? | _]; [done |].
    destruct (pendingOperator v1).
    + destruct (handleOperatorPending_attached v1 c keys Hc1) as (w & sent & Eop).
      rewrite Eop. simpl.
      apply handleOperatorPending_spec in Eop
        as [[-> (c' & Hc' & ->)] | [-> (pn & pt & ph & ->)]].
      * rewrite Hc1 in Hc'. injection Hc' as <-.
        rewrite applyImmediateMode_eq.
        eexists _, CmdSyncTick, [pendingKeys v1 +:+ keys].
        split; [reflexivity |]. split.
        { apply sequencer_inv_cleared. repeat split. }
        split; [done |]. split; [simpl; lia |].
        rewrite Eb. unfold buffered. simpl. by rewrite !append_empty_r.
      * apply Hbuf; simpl; try done.
        -- left. by apply append_nonempty.
        -- by right.
        -- rewrite Eb. unfold buffered. simpl. by rewrite Ec, append_empty_r.
    + case_match; (apply Hsend; [done | done | by rewrite Eb | done]).
Qed.

Lemma concat_strings_app (a b : list string) :
  concat_strings (a ++ b) = concat_strings a +:+ concat_strings b.
Proof.
  induction a as [|x a IH]; simpl; [done |]. by rewrite IH, append_assoc.
Qed.

(** No key is lost, doubled or reordered. For any run of key events
    without escape, fed to a view that only the sequencer has worked on and
    that has a client: the run never panics, at most one command goes out
    per key, and the commands sent, in order, followed by the text still
    buffered, spell the text buffered at the start followed by the keys. *)
Theorem key_text_is_conserved (keys : list string) (v : PuzzleView) (c : Client) :
  sequencer_inv v -> nvim v = Some c ->
  (forall k, In k keys -> k <> "<Esc>") ->
  exists v' sent,
    handleKeys v keys = Some v' /\
    sequencer_inv v' /\
    nvim v' = Some (mkClient (inputs c ++ sent)) /\
    (length sent <= length keys)%nat /\
    concat_strings sent +:+ buffered v' = buffered v +:+ concat_strings keys.
Proof.
  revert v c. induction keys as [|k rest IH]; intros v c Hinv Hc Hesc.
  - exists v, []. simpl. rewrite Client_eta, append_empty_r. auto.
  - destruct (handleNvimInput_conserves v c k Hinv Hc)
      as (v1 & cmd & sent1 & Estep & Hinv1 & Hc1 & Hlen1 & Hcons1);
      [apply Hesc; by left |].
    destruct (IH v1 (mkClient (inputs c ++ sent1)) Hinv1 Hc1)
      as (v' & sent2 & Erun & Hinv' & Hc' & Hlen2 & Hcons2);
      [intros k' Hk'; apply Hesc; by right |].
    exists v', (sent1 ++ sent2). simpl. rewrite Estep. simpl.
    split; [exact Erun |]. split; [exact Hinv' |].
    split; [by rewrite Hc', app_assoc |].
    split; [rewrite length_app; lia |].
    rewrite concat_strings_app, append_assoc, Hcons2.
    by rewrite <- append_assoc, Hcons1, append_assoc.
Qed.

Lemma key_text_is_conserved_witness :
  exists v' sent,
    handleKeys (NewPuzzleView (Some (mkClient []))) ["d"; "2"; "w"; "4"; "j"; "c"]
      = Some v' /\
    sequencer_inv v' /\
    nvim v' = Some (mkClient ([] ++ sent)) /\
    (length sent <= 6)%nat /\
    concat_strings sent +:+ buffered v' = "d2w4jc".
Proof.
  apply (key_text_is_conserved ["d"; "2"; "w"; "4"; "j"; "c"]
           (NewPuzzleView (Some (mkClient []))) (mkClient [])).
  - split; [intros _; simpl; auto | split; [by left | intros H; by destruct H]].
  - reflexivity.
  - intros k [<- | [<- | [<- | [<- | [<- | [<- | []]]]]]]; discriminate.
Defined.

(** ** The shape of what is buffered *)

Lemma all_digits_app (a b : string) :
  all_digits a = true -> all_digits b = true -> all_digits (a +:+ b) = true.
Proof.
  intros Ha Hb. induction a as [|x a IH]; [by rewrite append_nil_l |].
  simpl in Ha. apply andb_true_iff in Ha as [Hx Ha].
  rewrite append_cons. simpl. by rewrite Hx, IH.
Qed.

Lemma isDigitKey_all_digits (keys : string) :
  isDigitKey keys = true -> all_digits keys = true.
Proof.
  destruct keys as [|c [|? ?]]; simpl; try done. intros ->. done.
Qed.

Lemma count_shape_empty : count_shape EmptyString.
Proof. split; [done | by intros r]. Qed.

Lemma count_shape_first (keys : string) :
  isDigitKey keys = true -> negb (String.eqb keys "0") = true ->
  count_shape keys.
Proof.
  intros Hd Hz. split; [by apply isDigitKey_all_digits |].
  intros r ->. destruct r as [|? ?]; simpl in *; done.
Qed.

Lemma count_shape_more (pc keys : string) :
  pc <> EmptyString -> count_shape pc -> isDigitKey keys = true ->
  count_shape (pc +:+ keys).
Proof.
  intros Hne [Hd Hz] Hk. split.
  - apply all_digits_app; [done | by apply isDigitKey_all_digits].
  - destruct pc as [|x pc']; [done |]. rewrite append_cons.
    intros r [= -> _]. by apply (Hz pc').
Qed.

Lemma handleNvimInput_shape (v v' : PuzzleView) (keys : string) (cmd : Cmd) :
  (pendingKeys v = EmptyString \/ pendingCount v = EmptyString) ->
  count_shape (pendingCount v) ->
  handleNvimInput v keys = Some (v', cmd) ->
  (pendingKeys v' = EmptyString \/ pendingCount v' = EmptyString) /\
  count_shape (pendingCount v').
Proof.
  intros Hex Hsh. unfold handleNvimInput.
  destruct (String.eqb_spec keys EmptyString) as [-> | Hk];
    [returned; by split |].
  set (v1 := set_keystrokes v (GoInt.add (keystrokes v) 1)).
  assert (pendingKeys v1 = EmptyString \/ pendingCount v1 = EmptyString)
    as Hex1 by exact Hex.
  assert (count_shape (pendingCount v1)) as Hsh1 by exact Hsh.
  clearbody v1. clear Hex Hsh v.
  assert (forall w k k' v' cmd,
            pendingCount w = EmptyString ->
            inputAndSync (applyImmediateMode w k) k' = (v', cmd) ->
            (pendingKeys v' = EmptyString \/ pendingCount v' = EmptyString) /\
            count_shape (pendingCount v')) as Hsend.
  { intros w k k' u cmd' Hw E. apply send_spec in E as [_ ->]. simpl.
    rewrite Hw. split; [by right | apply count_shape_empty]. }
  destruct (negb (String.eqb (mode v1) "NORMAL"));
    [returned; by eapply (Hsend (clearPending v1)) |].
  destruct (String.eqb_spec (pendingKeys v1) EmptyString) as [Ep | Ep];
    cbn [negb].
  - destruct (String.eqb_spec (pendingCount v1) EmptyString) as [Ec | Ec];
      cbn [negb].
    + repeat case_match; returned;
        first
          [ by eapply (Hsend v1)
          | simpl; split; [by left | by apply count_shape_first]
          | simpl; split; [by right | rewrite Ec; apply count_shape_empty] ].
    + repeat case_match; returned;
        first
          [ by eapply (Hsend (set_pendingCount v1 EmptyString))
          | simpl; split; [by left | by apply count_shape_more]
          | simpl; split; [by right | apply count_shape_empty] ].
  - assert (pendingCount v1 = EmptyString) as Ec by (by destruct Hex1).
    destruct (String.eqb keys "<Esc>");
      [returned; by eapply (Hsend (clearPending v1)) |].
    destruct (pendingOperator v1).
    + destruct (handleOperatorPending v1 keys) as [[w sent] |] eqn:Eop;
        simpl; [| discriminate].
      apply handleOperatorPending_spec in Eop
        as [[-> (c' & Hc' & ->)] | [-> (pn & pt & ph & ->)]]; returned.
      * rewrite applyImmediateMode_eq. simpl.
        split; [by left | apply count_shape_empty].
      * simpl. rewrite Ec. split; [by right | apply count_shape_empty].
    + case_match; returned; by eapply (Hsend (clearPending v1)).
Qed.

(** In every view a session can reach, key text and a leading count are
    never buffered at the same time, the flags are only set together with
    key text, and a buffered count is a decimal numeral that does not start
    with ["0"]. *)
Theorem reachable_pending_shape (v : PuzzleView) :
  reachable v ->
  (pendingKeys v = EmptyString \/ pendingCount v = EmptyString) /\
  all_digits (pendingCount v) = true /\
  (forall r, pendingCount v <> String "0" r) /\
  (pendingKeys v = EmptyString ->
   pendingOperator v = false /\ pendingNeedsChar v = false /\
   pendingTextObject v = false /\ pendingHasCount v = false).
Proof.
  intros Hreach.
  assert ((pendingKeys v = EmptyString \/ pendingCount v = EmptyString) /\
          count_shape (pendingCount v)) as [Hex [Hd Hz]].
  { induction Hreach as [nv | v c _ IH _ | v m _ IH | v _ _ | v _ _
                         | v keys v' cmd _ IH Hstep].
    - split; [by left | apply count_shape_empty].
    - exact IH.
    - exact IH.
    - split; [by left | apply count_shape_empty].
    - split; [by left | apply count_shape_empty].
    - destruct IH as [Hex Hsh]. by eapply handleNvimInput_shape. }
  split; [exact Hex |]. split; [exact Hd |]. split; [exact Hz |].
  by apply reachable_flags.
Qed.

Lemma reachable_pending_shape_witness :
  all_digits
    (pendingCount
       (mkPuzzleView (Some (mkClient [])) 2 "NORMAL" EmptyString false false false
          false "10")) = true.
Proof.
  refine (proj1 (proj2 (reachable_pending_shape
    (mkPuzzleView (Some (mkClient [])) 2 "NORMAL" EmptyString false false false
       false "10") _))).
  apply (reach_key
           (mkPuzzleView (Some (mkClient [])) 1 "NORMAL" EmptyString false false
              false false "1") "0" _ CmdNil); [| reflexivity].
  apply (reach_key (NewPuzzleView (Some (mkClient []))) "1" _ CmdNil);
    [apply reach_new | reflexivity].
Defined.

(** ** The mode estimate after an operator command *)

Lemma shouldStartOperator_cases (op : string) :
  shouldStartOperator op = true -> op = "d" \/ op = "c" \/ op = "y".
Proof.
  unfold shouldStartOperator, key_in. simpl.
  destruct (String.eqb_spec op "d"); [auto |].
  destruct (String.eqb_spec op "c"); [auto |].
  destruct (String.eqb_spec op "y"); [auto | done].
Qed.

(** A command that starts with a digit or with an operator letter is none
    of the single keys of the mode table: its mode is decided by
    [entersInsertAfterChange] alone. *)
Lemma applyImmediateMode_operator_command (w : PuzzleView) (a : ascii) (r : string) :
  mode w = "NORMAL" ->
  is_digit_byte a = true \/ a = "d"%char \/ a = "c"%char \/ a = "y"%char ->
  mode (applyImmediateMode w (String a r))
    = (if entersInsertAfterChange (String a r) then "INSERT" else "NORMAL").
Proof.
  intros Hm Ha. unfold applyImmediateMode. rewrite Hm.
  assert (forall x : ascii,
            In x ["<"; "i"; "I"; "a"; "A"; "o"; "O"; "s"; "S"; "C"; "R"; "v"; "V";
                  ":"; "/"; "?"]%char ->
            Ascii.eqb a x = false) as Hmiss.
  { intros x Hx. apply Ascii.eqb_neq. intros ->.
    destruct Ha as [Hd | [E | [E | E]]];
      simpl in Hx; repeat destruct Hx as [<- | Hx]; try done. }
  unfold key_in. cbn [existsb String.eqb negb].
  rewrite !Hmiss by (simpl; tauto). cbn [orb].
  destruct (entersInsertAfterChange (String a r)); simpl; exact Hm || reflexivity.
Qed.

(** When a pending operator command is completed and sent from normal
    mode, the mode estimate becomes ["INSERT"] if the operator is [c] and
    stays ["NORMAL"] if it is [d] or [y], with or without counts before or
    after the operator letter. *)
Theorem operator_dispatch_sets_mode (v v2 : PuzzleView)
    (count op more keys : string) :
  mode v = "NORMAL" -> pendingOperator v = true ->
  pendingKeys v = count +:+ op +:+ more ->
  all_digits count = true -> shouldStartOperator op = true ->
  keys <> "<Esc>" ->
  handleNvimInput v keys = Some (v2, CmdSyncTick) ->
  mode v2 = (if String.eqb op "c" then "INSERT" else "NORMAL").
Proof.
  intros Hm Hop Hpk Hcount Hstart Hesc. unfold handleNvimInput.
  destruct (String.eqb_spec keys EmptyString) as [-> | Hk]; [done |].
  set (v1 := set_keystrokes v (GoInt.add (keystrokes v) 1)).
  assert (mode v1 = "NORMAL") as Hm1 by exact Hm.
  assert (pendingOperator v1 = true) as Hop1 by exact Hop.
  assert (pendingKeys v1 = count +:+ op +:+ more) as Hpk1 by exact Hpk.
  clearbody v1. rewrite Hm1. cbn [String.eqb Ascii.eqb Bool.eqb negb].
  assert (exists o, op = String o EmptyString /\ is_digit_byte o = false /\
                    (o = "d" \/ o = "c" \/ o = "y")%char /\
                    String.eqb op "c" = Ascii.eqb o "c") as (o & -> & Ho & Hdcy & Hc).
  { destruct (shouldStartOperator_cases op Hstart) as [-> | [-> | ->]];
      eexists; (split; [reflexivity |]); repeat split; auto. }
  assert (pendingKeys v1 <> EmptyString) as Hne.
  { rewrite Hpk1. destruct count; [by rewrite append_nil_l, append_cons |].
    by rewrite append_cons. }
  destruct (String.eqb_spec (pendingKeys v1) EmptyString) as [? | _]; [done |].
  cbn [negb].
  destruct (String.eqb_spec keys "<Esc>") as [? | _]; [done |].
  rewrite Hop1.
  destruct (handleOperatorPending v1 keys) as [[w sent] |] eqn:Eop;
    simpl; [| discriminate].
  apply handleOperatorPending_spec in Eop
    as [[-> (c' & Hc' & ->)] | [-> (pn & pt & ph & ->)]]; [| discriminate].
  returned. rewrite Hpk1. clear Hc.
  assert ((count +:+ String o EmptyString +:+ more) +:+ keys
          = count +:+ String o (more +:+ keys)) as Ecomb.
  { rewrite !append_assoc. by rewrite append_cons, append_nil_l. }
  rewrite Ecomb.
  assert (entersInsertAfterChange (count +:+ String o (more +:+ keys))
          = Ascii.eqb o "c") as Eins.
  { unfold entersInsertAfterChange. rewrite skip_digits_prefix by done.
    destruct (Ascii.eqb o "c"); [| done].
    destruct (String.eqb_spec (more +:+ keys) EmptyString) as [E | _]; [| done].
    by destruct (append_nonempty more keys Hk). }
  destruct count as [|d ds].
  - rewrite append_nil_l in *.
    rewrite applyImmediateMode_operator_command;
      [rewrite Eins; by destruct (Ascii.eqb o "c") | exact Hm1 |].
    right. exact Hdcy.
  - rewrite append_cons in *. simpl in Hcount.
    apply andb_true_iff in Hcount as [Hd _].
    rewrite applyImmediateMode_operator_command;
      [rewrite Eins; by destruct (Ascii.eqb o "c") | exact Hm1 |].
    by left.
Qed.

Lemma operator_dispatch_sets_mode_witness :
  mode
    (mkPuzzleView (Some (mkClient ["3c2w"])) 4 "INSERT" EmptyString false false
       false false EmptyString)
  = "INSERT".
Proof.
  apply (operator_dispatch_sets_mode
           (mkPuzzleView (Some (mkClient [])) 3 "NORMAL" "3c2" true false false
              true EmptyString) _ "3" "c" "2" "w");
    try reflexivity; discriminate.
Defined.
